(** * MNet: base-station simulator control (js/address-search.js)

    A shallow embedding of the coverage / simulation part of the script:
    the station store and its north-to-south order, the ring layer, the
    coverage button, the ring-cycle interval timer and the asynchronous
    station tour loop.

    JavaScript numbers are modelled by rationals [Q]: the station
    coordinates are finite decimal degrees read from a CSV file, and the
    only arithmetic the script performs on them ([b.lat - a.lat], whose
    sign drives the sort, and [km * 1000] on small integers) has the same
    sign, respectively the same value, in float64.  [None] stands for
    [undefined] (an array read out of range) and for the [NaN] that
    arithmetic on it yields.

    The event loop is modelled by explicit state passing: [World] holds the
    script's module-level variables together with the part of the browser
    the script talks to (timer table, [moveend] listeners of the map, the
    calls made to [map.flyTo]); one [Event] is one macrotask, run to
    completion together with the microtasks (continuations of [await]) it
    releases. *)

From Stdlib Require Import QArith ZArith Lia.
From Stdlib Require Import Sorting.Sorted Sorting.Permutation.
From stdpp Require Import base option list sorting gmap strings.

Open Scope Z_scope.

(** ** Data *)

Record Station := mkStation { lat : Q; lon : Q }.

Definition LatLng : Type := Q * Q.

(** A circle added to [ringLayerGroup]; the style options are constants. *)
Record Circle := mkCircle { c_center : LatLng; c_radius : option Q }.

(** One call of [map.flyTo(latlng, zoom, {animate: true, duration})]. *)
Record FlyCall := mkFly { f_target : LatLng; f_zoom : Z; f_duration : Z }.

(** ** Constants *)

Definition coverageSteps : list Q := [0; 5; 10; 15; 20; 25; 30; 40]%Q.

Definition ZOOM_BASE : Z := 15.
Definition ZOOM_CLOSE : Z := 11.
Definition RING_STEP_MS : Z := 500.
Definition FLY_DUR_BASE : Z := 20.
Definition FLY_DUR_CLOSE : Z := 25.
Definition PAUSE_CLOSE_MS : Z := 800.
Definition PAUSE_BETWEEN_MS : Z := 600.

(** ** Station order (north -> south) *)

Module Order.

(** The objects [{ i, lat: s.lat }] built by the first [map]. *)
Definition Entry : Type := nat * Q.

(** [(a, b) => b.lat - a.lat] *)
Definition compareFn (a b : Entry) : Q := (snd b - snd a)%Q.

(** [Array.prototype.sort] is stable, and with a consistent comparator
    its result is the one list that is sorted and keeps equal elements in
    their original order, whichever algorithm the engine runs.  That list
    is computed here by a stable insertion sort: [a] goes behind [b]
    exactly when [compareFn a b > 0]. *)
Fixpoint insert (a : Entry) (l : list Entry) : list Entry :=
  match l with
  | [] => [a]
  | b :: l' =>
      match (compareFn a b ?= 0)%Q with
      | Gt => b :: insert a l'
      | _ => a :: l
      end
  end.

Fixpoint sort (l : list Entry) : list Entry :=
  match l with
  | [] => []
  | a :: l' => insert a (sort l')
  end.

(** [.map((s, i) => ({ i, lat: s.lat }))], counting from index [i0]. *)
Fixpoint entries (i0 : nat) (ss : list Station) : list Entry :=
  match ss with
  | [] => []
  | s :: ss' => (i0, lat s) :: entries (S i0) ss'
  end.

(** [a] may stand before [b] in a list of descending latitude. *)
Definition desc (a b : Entry) : Prop := (snd b <= snd a)%Q.

(** The value assigned to [stationOrder] by [rebuildStationOrder]. *)
Definition of_stations (ss : list Station) : list nat :=
  map fst (sort (entries 0 ss)).

End Order.

(** ** The tour loop as a suspended computation

    [zoomStationsLoop] is an [async] function: between two [await]s it runs
    without interruption, and at an [await] it is parked until the promise
    settles.  A parked activation is the point it waits at together with
    its live locals [idx] and [target]. *)

Inductive Loop :=
| AwaitPoll (idx : nat)                          (* await sleep(1000) *)
| AwaitFlyBase1 (idx : nat) (target : LatLng)    (* first flyToAsync, base zoom *)
| AwaitFlyClose (idx : nat) (target : LatLng)    (* flyToAsync, close zoom *)
| AwaitPauseClose (idx : nat) (target : LatLng)  (* await sleep(PAUSE_CLOSE_MS) *)
| AwaitFlyBase2 (idx : nat) (target : LatLng)    (* flyToAsync back to base zoom *)
| AwaitPauseBetween (idx : nat) (target : LatLng). (* await sleep(PAUSE_BETWEEN_MS) *)

Definition loop_idx (k : Loop) : nat :=
  match k with
  | AwaitPoll i | AwaitFlyBase1 i _ | AwaitFlyClose i _
  | AwaitPauseClose i _ | AwaitFlyBase2 i _ | AwaitPauseBetween i _ => i
  end.

(** An entry of the browser's timer table.  [Interval ms idx] is the
    callback installed by [startRingCycle], with the [idx] its closure
    holds; [Timeout ms k] is the [setTimeout(res, ms)] of a [sleep] whose
    promise the parked loop [k] awaits. *)
Inductive Timer :=
| Interval (ms : Z) (idx : nat)
| Timeout (ms : Z) (k : Loop).

(** What the script last wrote to the coverage button:
    [className = `coverage-btn cov-state-${b_class}`] and the text of its
    [span] ([None] is the empty string). *)
Record Button := mkButton { b_class : Z; b_label : option Q }.

(** ** The state *)

Record World := mkWorld {
  (* module-level variables of the script *)
  stations : list Station;
  stationOrder : list nat;
  coverageState : Z;
  ringInterval : option nat;          (* null, or a timer id *)
  simRunning : bool;
  (* objects the script writes to *)
  ringLayer : list Circle;            (* layers of ringLayerGroup *)
  button : option Button;             (* None: not written by the script yet *)
  (* the browser *)
  nextTimer : nat;                    (* the id the next timer gets *)
  timers : gmap nat Timer;            (* active timers by id *)
  listeners : list Loop;              (* 'moveend' listeners, oldest first *)
  flyLog : list FlyCall;              (* calls of map.flyTo, oldest first *)
  uncaught : nat                      (* rejections of the loop's promise *)
}.

Definition set_stations (x : list Station) (w : World) : World :=
  mkWorld x (stationOrder w) (coverageState w) (ringInterval w) (simRunning w)
    (ringLayer w) (button w) (nextTimer w) (timers w) (listeners w) (flyLog w)
    (uncaught w).
Definition set_stationOrder (x : list nat) (w : World) : World :=
  mkWorld (stations w) x (coverageState w) (ringInterval w) (simRunning w)
    (ringLayer w) (button w) (nextTimer w) (timers w) (listeners w) (flyLog w)
    (uncaught w).
Definition set_coverageState (x : Z) (w : World) : World :=
  mkWorld (stations w) (stationOrder w) x (ringInterval w) (simRunning w)
    (ringLayer w) (button w) (nextTimer w) (timers w) (listeners w) (flyLog w)
    (uncaught w).
Definition set_ringInterval (x : option nat) (w : World) : World :=
  mkWorld (stations w) (stationOrder w) (coverageState w) x (simRunning w)
    (ringLayer w) (button w) (nextTimer w) (timers w) (listeners w) (flyLog w)
    (uncaught w).
Definition set_simRunning (x : bool) (w : World) : World :=
  mkWorld (stations w) (stationOrder w) (coverageState w) (ringInterval w) x
    (ringLayer w) (button w) (nextTimer w) (timers w) (listeners w) (flyLog w)
    (uncaught w).
Definition set_ringLayer (x : list Circle) (w : World) : World :=
  mkWorld (stations w) (stationOrder w) (coverageState w) (ringInterval w)
    (simRunning w) x (button w) (nextTimer w) (timers w) (listeners w)
    (flyLog w) (uncaught w).
Definition set_button (x : option Button) (w : World) : World :=
  mkWorld (stations w) (stationOrder w) (coverageState w) (ringInterval w)
    (simRunning w) (ringLayer w) x (nextTimer w) (timers w) (listeners w)
    (flyLog w) (uncaught w).
Definition set_nextTimer (x : nat) (w : World) : World :=
  mkWorld (stations w) (stationOrder w) (coverageState w) (ringInterval w)
    (simRunning w) (ringLayer w) (button w) x (timers w) (listeners w)
    (flyLog w) (uncaught w).
Definition set_timers (x : gmap nat Timer) (w : World) : World :=
  mkWorld (stations w) (stationOrder w) (coverageState w) (ringInterval w)
    (simRunning w) (ringLayer w) (button w) (nextTimer w) x (listeners w)
    (flyLog w) (uncaught w).
Definition set_listeners (x : list Loop) (w : World) : World :=
  mkWorld (stations w) (stationOrder w) (coverageState w) (ringInterval w)
    (simRunning w) (ringLayer w) (button w) (nextTimer w) (timers w) x
    (flyLog w) (uncaught w).
Definition set_flyLog (x : list FlyCall) (w : World) : World :=
  mkWorld (stations w) (stationOrder w) (coverageState w) (ringInterval w)
    (simRunning w) (ringLayer w) (button w) (nextTimer w) (timers w)
    (listeners w) x (uncaught w).
Definition set_uncaught (x : nat) (w : World) : World :=
  mkWorld (stations w) (stationOrder w) (coverageState w) (ringInterval w)
    (simRunning w) (ringLayer w) (button w) (nextTimer w) (timers w)
    (listeners w) (flyLog w) x.

(** The state when the script has run to its end: [coverageState = 7],
    no station loaded yet, [loadStations()] has only issued its fetch.
    Timer ids are positive integers. *)
Definition init_world : World :=
  mkWorld [] [] 7 None false [] None 1%nat ∅ [] [] 0%nat.

(** ** Browser primitives *)

(** [setTimeout] / [setInterval]: a fresh id. *)
Definition add_timer (t : Timer) (w : World) : nat * World :=
  let h := nextTimer w in
  (h, set_nextTimer (S h) (set_timers (<[h := t]> (timers w)) w)).

(** [clearInterval(h)] *)
Definition clearInterval (h : nat) (w : World) : World :=
  set_timers (delete h (timers w)) w.

(** Truthiness of [ringInterval]: [null] and [0] are falsy. *)
Definition truthy (o : option nat) : bool :=
  match o with
  | Some h => negb (h =? 0)%nat
  | None => false
  end.

(** [await sleep(ms)]: the activation parks in a new timeout. *)
Definition sleep (ms : Z) (k : Loop) (w : World) : World :=
  snd (add_timer (Timeout ms k) w).

(** [await flyToAsync(latlng, zoom, durationSec)]: [map.on('moveend', onEnd)],
    then [map.flyTo]; the activation parks until [onEnd] runs. *)
Definition flyToAsync (target : LatLng) (zoom dur : Z) (k : Loop) (w : World)
  : World :=
  set_flyLog (flyLog w ++ [mkFly target zoom dur])
    (set_listeners (listeners w ++ [k]) w).

(** A [TypeError] inside the loop rejects its promise; nobody handles it and
    the activation is gone. *)
Definition throw (w : World) : World := set_uncaught (S (uncaught w)) w.

(** ** The script *)

Definition rebuildStationOrder (w : World) : World :=
  set_stationOrder (Order.of_stations (stations w)) w.

Definition clearCoverage (w : World) : World := set_ringLayer [] w.

(** [L.circle([site.lat, site.lon], { radius: km * 1000, ... })] *)
Definition circle (km : option Q) (site : Station) : Circle :=
  mkCircle (lat site, lon site) ((fun k => k * 1000)%Q <$> km).

Definition drawSingleRing (km : option Q) (w : World) : World :=
  let w := clearCoverage w in
  if bool_decide (length (stations w) = 0%nat) then w
  else set_ringLayer (ringLayer w ++ map (circle km) (stations w)) w.

(** The loop from its [while (simRunning)] test up to the next [await]. *)
Definition loop_head (idx : nat) (w : World) : World :=
  if negb (simRunning w) then w
  else if bool_decide (length (stations w) = 0%nat)
          || bool_decide (length (stationOrder w) = 0%nat)
  then sleep 1000 (AwaitPoll idx) w
  else
    match stationOrder w !! (idx mod length (stationOrder w))%nat with
    | None => throw w
    | Some sIndex =>
        match stations w !! sIndex with
        | None => throw w                 (* s is undefined: s.lat throws *)
        | Some s =>
            let target := (lat s, lon s) in
            flyToAsync target ZOOM_BASE FLY_DUR_BASE (AwaitFlyBase1 idx target) w
        end
    end.

(** The continuation of a parked activation, up to its next [await] or to the
    end of the function. *)
Definition resume (k : Loop) (w : World) : World :=
  match k with
  | AwaitPoll idx => loop_head idx w                       (* continue *)
  | AwaitFlyBase1 idx target =>
      if negb (simRunning w) then w
      else flyToAsync target ZOOM_CLOSE FLY_DUR_CLOSE (AwaitFlyClose idx target) w
  | AwaitFlyClose idx target =>
      if negb (simRunning w) then w
      else sleep PAUSE_CLOSE_MS (AwaitPauseClose idx target) w
  | AwaitPauseClose idx target =>
      if negb (simRunning w) then w
      else flyToAsync target ZOOM_BASE FLY_DUR_BASE (AwaitFlyBase2 idx target) w
  | AwaitFlyBase2 idx target =>
      if negb (simRunning w) then w
      else sleep PAUSE_BETWEEN_MS (AwaitPauseBetween idx target) w
  | AwaitPauseBetween idx target => loop_head (S idx) w       (* idx++ *)
  end.

(** The call [zoomStationsLoop()], up to its first [await]. *)
Definition zoomStationsLoop (w : World) : World :=
  let w := if bool_decide (length (stationOrder w) = 0%nat)
           then rebuildStationOrder w else w in
  loop_head 0 w.

(** One run of the callback of [startRingCycle] for timer [h], whose closure
    holds [idx]. *)
Definition ringTick (h : nat) (ms : Z) (idx : nat) (w : World) : World :=
  let w := drawSingleRing (coverageSteps !! idx) w in
  let idx := S idx in
  let idx := if (length coverageSteps <=? idx)%nat then 1%nat else idx in
  set_timers (<[h := Interval ms idx]> (timers w)) w.

Definition startRingCycle (w : World) : World :=
  let w := clearCoverage w in
  let w := if truthy (ringInterval w)
           then clearInterval (default 0%nat (ringInterval w)) w else w in
  let '(h, w) := add_timer (Interval RING_STEP_MS 1) w in
  set_ringInterval (Some h) w.

Definition stopRingCycle (w : World) : World :=
  let w := if truthy (ringInterval w)
           then clearInterval (default 0%nat (ringInterval w)) w else w in
  set_ringInterval None w.

Definition startSimulation (w : World) : World :=
  if simRunning w then w
  else
    let w := set_simRunning true w in
    let w := startRingCycle w in
    zoomStationsLoop w.

Definition stopSimulation (w : World) : World :=
  stopRingCycle (set_simRunning false w).

(** [coverageState++; if (coverageState > 8) coverageState = 0;] *)
Definition nextCoverageState (s : Z) : Z :=
  let s := s + 1 in if 8 <? s then 0 else s.

(** [coverageSteps[s]] for a number [s]: defined for the integers
    [0 .. length - 1]. *)
Definition coverageStep (s : Z) : option Q :=
  if s <? 0 then None else coverageSteps !! Z.to_nat s.

(** The click listener of [coverageBtn]. *)
Definition click (w : World) : World :=
  let s := nextCoverageState (coverageState w) in
  let w := set_coverageState s w in
  let w := set_button
             (Some (mkButton s (if (1 <=? s) && (s <=? 7)
                                then coverageStep s else None))) w in
  let w := stopSimulation w in
  if s =? 0 then clearCoverage w
  else if (1 <=? s) && (s <=? 7) then drawSingleRing (coverageStep s) w
  else if s =? 8 then startSimulation w
  else w.

(** A parsed CSV row: the values of the two coordinate columns, [None] when
    [typeof] of the value is not ["number"]. *)
Record Row := mkRow { r_lat : option Q; r_lon : option Q }.

(** The body of [data.forEach]: the markers it adds to [baseStationLayer]
    play no part in what follows and are left out. *)
Definition loadRow (w : World) (site : Row) : World :=
  match r_lat site, r_lon site with
  | Some la, Some lo => set_stations (stations w ++ [mkStation la lo]) w
  | _, _ => w
  end.

(** The [complete] callback of [Papa.parse]. *)
Definition loadComplete (data : list Row) (w : World) : World :=
  let w := foldl loadRow w data in
  let w := rebuildStationOrder w in
  let w := set_button (Some (mkButton 7 (coverageStep 7))) w in
  drawSingleRing (coverageStep 7) w.

(** ** The event loop *)

Inductive Event :=
| Click                          (* the user activates coverageBtn *)
| TimerFire (h : nat)            (* the browser runs timer h, if it is active *)
| MoveEnd                        (* the map fires 'moveend' *)
| LoadComplete (data : list Row). (* sites.csv has been fetched and parsed *)

(** A timer fires: an interval runs its callback and stays; a timeout is
    used up and releases the loop that sleeps on it. *)
Definition fire (h : nat) (w : World) : World :=
  match timers w !! h with
  | Some (Interval ms idx) => ringTick h ms idx w
  | Some (Timeout ms k) => resume k (set_timers (delete h (timers w)) w)
  | None => w
  end.

(** ['moveend']: every [onEnd] registered so far unregisters itself and
    resolves its promise; the continuations then run in that order. *)
Definition moveEnd (w : World) : World :=
  foldl (fun w k => resume k w) (set_listeners [] w) (listeners w).

Definition step (e : Event) (w : World) : World :=
  match e with
  | Click => click w
  | TimerFire h => fire h w
  | MoveEnd => moveEnd w
  | LoadComplete data => loadComplete data w
  end.

Definition run (evs : list Event) (w : World) : World :=
  foldl (fun w e => step e w) w evs.

(** ** Observations *)

(** The loops parked on a [sleep]. *)
Definition sleepers (w : World) : list Loop :=
  omap (fun t => match t with Timeout _ k => Some k | Interval _ _ => None end)
       (map_to_list (timers w)).*2.

(** The activations of [zoomStationsLoop] that have not returned. *)
Definition tourLoops (w : World) : list Loop := listeners w ++ sleepers w.

Definition isInterval (t : Timer) : bool :=
  match t with Interval _ _ => true | Timeout _ _ => false end.

(** The active interval timers: the ring cycles that are running. *)
Definition intervalTimers (w : World) : gmap nat Timer :=
  filter (fun p => isInterval (snd p) = true) (timers w).

(** The radii the specification names for the ring cycle, to be compared
    with what the callback reads from [coverageSteps]. *)
Definition cycleRadii : list Q := [5; 10; 15; 20; 25; 30; 40]%Q.

Definition isClick (e : Event) : bool :=
  match e with Click => true | _ => false end.

Definition isFire (h : nat) (e : Event) : bool :=
  match e with TimerFire h' => bool_decide (h' = h) | _ => false end.

(** How many times timer [h] fires in [evs]. *)
Definition ticks (h : nat) (evs : list Event) : nat :=
  length (filter (fun e => isFire h e = true) evs).

(** Station [s] is at least as far north as every station of [ss]. *)
Definition northernmost (ss : list Station) (s : Station) : Prop :=
  s ∈ ss ∧ ∀ s', s' ∈ ss → (lat s' <= lat s)%Q.

(** The [idx] the ring-cycle callback leaves in its closure. *)
Definition nextIdx (idx : nat) : nat :=
  let idx := S idx in if (length coverageSteps <=? idx)%nat then 1%nat else idx.

(** ** Invariants of the reachable states *)

(** The timer table: ids are handed out in increasing order from 1, the
    handle in [ringInterval] names an interval whose closure index is within
    [1 .. 7], and no other interval is active. *)
Record TimerInv (w : World) : Prop := mkTimerInv {
  ti_pos : (1 <= nextTimer w)%nat;
  ti_fresh : ∀ h, is_Some (timers w !! h) → (h < nextTimer w)%nat;
  ti_ring : ∀ h, ringInterval w = Some h →
      h ≠ 0%nat ∧ ∃ i, timers w !! h = Some (Interval RING_STEP_MS i)
                       ∧ (1 <= i <= 7)%nat;
  ti_only : ∀ h ms i, timers w !! h = Some (Interval ms i) →
      ringInterval w = Some h
}.

(** The globals: the order is the sorted order of the stations held, rings
    exist only around stations, the button state stays within [0 .. 8] and
    the simulation flag is up exactly in state 8, together with the ring
    cycle. *)
Record GlobalInv (w : World) : Prop := mkGlobalInv {
  gi_order : stationOrder w = Order.of_stations (stations w);
  gi_layer : stations w = [] → ringLayer w = [];
  gi_state : 0 <= coverageState w <= 8;
  gi_running : simRunning w = bool_decide (coverageState w = 8);
  gi_ring : is_Some (ringInterval w) ↔ simRunning w = true
}.

(** ** What one continuation of the loop can do

    Between two [await]s an activation of [zoomStationsLoop] either returns,
    parks on a new [sleep], issues one [flyTo] and parks on ['moveend'], or
    throws. *)
Inductive Effect (w : World) : World → Prop :=
| eff_return : Effect w w
| eff_sleep ms k : Effect w (sleep ms k w)
| eff_fly target zoom dur k : Effect w (flyToAsync target zoom dur k w)
| eff_throw : Effect w (throw w).

(** [Frame w w']: from [w] to [w'] the script's globals, the ring layer and
    the button are untouched, the timers of [w] are all still there, and
    every timer added is a timeout with a fresh id. *)
Record Frame (w w' : World) : Prop := mkFrame {
  fr_stations : stations w' = stations w;
  fr_order : stationOrder w' = stationOrder w;
  fr_state : coverageState w' = coverageState w;
  fr_ring : ringInterval w' = ringInterval w;
  fr_running : simRunning w' = simRunning w;
  fr_layer : ringLayer w' = ringLayer w;
  fr_button : button w' = button w;
  fr_next : (nextTimer w <= nextTimer w')%nat;
  fr_old : ∀ h, (h < nextTimer w)%nat → timers w' !! h = timers w !! h;
  fr_new : ∀ h t, (nextTimer w <= h)%nat → timers w' !! h = Some t →
      (h < nextTimer w')%nat ∧ isInterval t = false
}.

(** The stations a list of rows contributes: those of the rows whose two
    coordinates are numbers. *)
Definition validRows (data : list Row) : list Station :=
  omap (fun site => match r_lat site, r_lon site with
                    | Some la, Some lo => Some (mkStation la lo)
                    | _, _ => None
                    end) data.

(** [evs] holds no button activation. *)
Definition quiet (evs : list Event) : Prop :=
  Forall (fun e => isClick e = false) evs.

(** ** Sample scenarios *)

(** Three rows of [sites.csv], at latitudes -10, 20 and 5. *)
Definition sampleRows : list Row :=
  [mkRow (Some (-10)%Q) (Some 1%Q); mkRow (Some 20%Q) (Some 2%Q);
   mkRow (Some 5%Q) (Some 3%Q)].

(** The stations are loaded and the button shows 40 km. *)
Definition loadedWorld : World := run [LoadComplete sampleRows] init_world.

(** From there one activation starts the simulation. *)
Definition touringWorld : World := run [Click] loadedWorld.

(** The next activation stops it, while the loop waits on its first fly. *)
Definition stoppedWorld : World := run [Click] touringWorld.

(** Eight more activations, before the map reports the end of that fly, lead
    round to state 8 again. *)
Definition restartedWorld : World := run (repeat Click 8) stoppedWorld.

(** An activation before the stations have arrived. *)
Definition earlyClickWorld : World :=
  run [Click; LoadComplete sampleRows] init_world.

(** From [touringWorld] the loop has done with the first station and waits
    for the end of its first fly to the second one, its counter at 1. *)
Definition secondStationWorld : World :=
  run [MoveEnd; MoveEnd; TimerFire 2; MoveEnd; TimerFire 3] touringWorld.

(** Nine activations before the map reports the end of that fly: the
    simulation is stopped by the first and started again by the last. *)
Definition quickRestartWorld : World :=
  run (repeat Click 9) secondStationWorld.

(** ** Further observations *)

(** The loop a timer entry holds asleep, if any. *)
Definition timerLoop (t : Timer) : option Loop :=
  match t with Timeout _ k => Some k | Interval _ _ => None end.

(** The loops asleep in a timer table ([sleepers] reads it off a state). *)
Definition sleepersOf (m : gmap nat Timer) : list Loop :=
  omap timerLoop (map_to_list m).*2.

(** The ring layer is empty, or holds one circle per station, in the order
    of the store, all of one radius out of 5 .. 40 km. *)
Definition ringsConsistent (w : World) : Prop :=
  ringLayer w = []
  ∨ ∃ km, km ∈ cycleRadii ∧ ringLayer w = map (circle (Some km)) (stations w).

(** The camera has never been moved, and every tour loop is asleep on its
    1000 ms poll. *)
Definition onlyPolls (w : World) : Prop :=
  flyLog w = [] ∧ listeners w = []
  ∧ ∀ h ms k, timers w !! h = Some (Timeout ms k) → ∃ idx, k = AwaitPoll idx.

(** The station the loop flies to in the iteration counted [idx]. *)
Definition tourStation (w : World) (idx : nat) : option Station :=
  stationOrder w !! (idx mod length (stationOrder w))%nat
    ≫= fun sIndex => stations w !! sIndex.

(** The place a parked loop will fly to again, if it holds one. *)
Definition loop_target (k : Loop) : option LatLng :=
  match k with
  | AwaitPoll _ => None
  | AwaitFlyBase1 _ t | AwaitFlyClose _ t | AwaitPauseClose _ t
  | AwaitFlyBase2 _ t | AwaitPauseBetween _ t => Some t
  end.

(** [t] is the position of one of the stations [ss]. *)
Definition isStation (ss : list Station) (t : LatLng) : Prop :=
  ∃ s, s ∈ ss ∧ t = (lat s, lon s).

(** A call of [flyTo] that goes to a station, at one of the two zoom levels
    and with the duration that belongs to it. *)
Definition flyOK (ss : list Station) (f : FlyCall) : Prop :=
  isStation ss (f_target f)
  ∧ ((f_zoom f = ZOOM_BASE ∧ f_duration f = FLY_DUR_BASE)
     ∨ (f_zoom f = ZOOM_CLOSE ∧ f_duration f = FLY_DUR_CLOSE)).

(** Every fly so far went to a station of [ss], and every parked loop that
    holds a target holds a station of [ss]. *)
Definition targetsOK (ss : list Station) (w : World) : Prop :=
  Forall (flyOK ss) (flyLog w)
  ∧ (∀ k t, k ∈ listeners w → loop_target k = Some t → isStation ss t)
  ∧ (∀ h ms k t, timers w !! h = Some (Timeout ms k) →
                 loop_target k = Some t → isStation ss t).

(** ** The measurement tool

    The second script of the page: a button switches measuring on and off,
    clicks on the map add points, [Escape] switches off.  It shares nothing
    with the coverage button but the map, so it has a state of its own:
    the four module-level variables and what the tool sees of the map. *)

Module Measure.

(** A layer put on the map.  Leaflet stamps every layer with an id of its
    own and [removeLayer] goes by it. *)
Inductive Shape :=
| CircleMarker (pos : LatLng)            (* L.circleMarker(latlng, ...) *)
| Polyline (pts : list LatLng)           (* L.polyline(latlngs, ...) *)
| Foreign.                               (* a layer of another script *)

Record Layer := mkLayer { ly_id : nat; ly_shape : Shape }.

(** The popup open on the map: the tool's, with the number it shows as
    [`<b>${total.toFixed(2)} km</b>`], or one opened by another script. *)
Inductive Popup :=
| TotalPopup (pos : LatLng) (km : Q)
| OtherPopup.

Inductive Cursor := CursorDefault | Crosshair.

Record Tool := mkTool {
  measuring : bool;
  measurePoints : list LatLng;
  measureLine : option Layer;
  measureMarkers : list Layer;
  mapLayers : list Layer;       (* the layers on the map, oldest first *)
  popup : option Popup;         (* the popup open on the map *)
  cursor : Cursor;              (* map.getContainer().style.cursor *)
  btnActive : bool;             (* class "active" and the dark colours *)
  nextId : nat                  (* the stamp the next layer gets *)
}.

(** [layer.addTo(map)] for a new layer of shape [sh]. *)
Definition addTo (sh : Shape) (t : Tool) : Layer * Tool :=
  let l := mkLayer (nextId t) sh in
  (l, mkTool (measuring t) (measurePoints t) (measureLine t)
        (measureMarkers t) (mapLayers t ++ [l]) (popup t) (cursor t)
        (btnActive t) (S (nextId t))).

(** [map.removeLayer(l)] *)
Definition removeLayer (l : Layer) (layers : list Layer) : list Layer :=
  filter (fun x => ly_id x ≠ ly_id l) layers.

Section WithMap.

(** [map.distance(a, b)], in metres. *)
Variable distance : LatLng → LatLng → Q.

(** The [for] loop that adds up the legs: [total += map.distance(p[i-1], p[i])]. *)
Fixpoint sumLegs (total : Q) (prev : LatLng) (rest : list LatLng) : Q :=
  match rest with
  | [] => total
  | p :: rest' => sumLegs (total + distance prev p)%Q p rest'
  end.

Definition totalMetres (pts : list LatLng) : Q :=
  match pts with
  | [] => 0%Q
  | p0 :: rest => sumLegs 0%Q p0 rest
  end.

(** The click listener of [measureBtn]. *)
Definition btnClick (t : Tool) : Tool :=
  let m := negb (measuring t) in
  if negb m then
    let layers := match measureLine t with
                  | Some l => removeLayer l (mapLayers t)
                  | None => mapLayers t
                  end in
    let layers := foldl (fun ls mk => removeLayer mk ls) layers
                        (measureMarkers t) in
    mkTool m [] None [] layers None CursorDefault m (nextId t)
  else
    mkTool m (measurePoints t) (measureLine t) (measureMarkers t)
      (mapLayers t) (popup t) Crosshair m (nextId t).

(** The click listener of the map.  It is the listener only: what Leaflet
    does of its own on a click before it calls the listener (by default it
    closes an open popup) is no part of it. *)
Definition mapClick (p : LatLng) (t : Tool) : Tool :=
  if negb (measuring t) then t
  else
    let pts := measurePoints t ++ [p] in
    let '(marker, t) := addTo (CircleMarker p) t in
    let t := mkTool (measuring t) pts (measureLine t)
               (measureMarkers t ++ [marker]) (mapLayers t) (popup t)
               (cursor t) (btnActive t) (nextId t) in
    if (1 <? length pts)%nat then
      let layers := match measureLine t with
                    | Some l => removeLayer l (mapLayers t)
                    | None => mapLayers t
                    end in
      let t := mkTool (measuring t) (measurePoints t) (measureLine t)
                 (measureMarkers t) layers (popup t) (cursor t)
                 (btnActive t) (nextId t) in
      let '(line, t) := addTo (Polyline pts) t in
      let total := (totalMetres pts / 1000)%Q in
      mkTool (measuring t) (measurePoints t) (Some line) (measureMarkers t)
        (mapLayers t) (Some (TotalPopup p total)) (cursor t) (btnActive t)
        (nextId t)
    else t.

(** The [keydown] listener of the document; [escape] is
    [e.key === "Escape"]. *)
Definition keyDown (escape : bool) (t : Tool) : Tool :=
  if escape && measuring t then btnClick t else t.

Inductive Event :=
| BtnClick
| MapClick (p : LatLng)
| KeyDown (escape : bool).

Definition step (e : Event) (t : Tool) : Tool :=
  match e with
  | BtnClick => btnClick t
  | MapClick p => mapClick p t
  | KeyDown escape => keyDown escape t
  end.

Definition run (evs : list Event) (t : Tool) : Tool :=
  foldl (fun t e => step e t) t evs.

End WithMap.

(** The tool when its script has run: measuring is off, nothing is drawn;
    [others] are the layers other scripts have on the map, [pop] the popup
    that may be open, [n] the next stamp. *)
Definition init (others : list Layer) (pop : option Popup) (n : nat) : Tool :=
  mkTool false [] None [] others pop CursorDefault false n.

(** What links the tool's variables and the map: one marker per point, in
    the order of the clicks; a line through all the points once there are
    two; on the map, after the layers of others, exactly these; and with
    measuring off, nothing. *)
Record Consistent (others : list Layer) (t : Tool) : Prop := mkConsistent {
  co_markers : map ly_shape (measureMarkers t)
               = map CircleMarker (measurePoints t);
  co_line : map ly_shape (option_list (measureLine t))
            = if (1 <? length (measurePoints t))%nat
              then [Polyline (measurePoints t)] else [];
  co_map : mapLayers t
           = others ++ measureMarkers t ++ option_list (measureLine t);
  co_off : measuring t = false → measurePoints t = [];
  co_button : btnActive t = measuring t;
  co_cursor : cursor t = if measuring t then Crosshair else CursorDefault;
  co_fresh : Forall (fun l => (ly_id l < nextId t)%nat) (mapLayers t);
  co_own : Forall (fun l => ∀ o, o ∈ others → ly_id o ≠ ly_id l)
             (measureMarkers t ++ option_list (measureLine t));
  co_nodup : NoDup (map ly_id (measureMarkers t ++ option_list (measureLine t)))
}.

End Measure.


(** ** The address search box

    The first script of the page.  Its submit listener is an [async]
    function with one [await], on [geocodeAddress(query)]; what the lookup
    does is the browser's and the geocoder's business and comes in as the
    [Outcome] of that promise. *)

Module Search.

(** [data[0]] of the geocoder's answer: the two coordinates after
    [parseFloat] ([None] is [NaN]) and [display_name] ([None] when it is
    missing or empty). *)
Record Geo := mkGeo {
  g_lat : option Q; g_lon : option Q; g_name : option string
}.

(** How [geocodeAddress] ends: it rejects ([fetch] fails, the response is
    not [ok], or its body is not JSON), it resolves to [null] (the answer is
    not an array, or is empty, or its first element is falsy), or it
    resolves to the first element. *)
Inductive Outcome :=
| Rejected
| NoResult
| Found (r : Geo).

Inductive Alert :=
| AlertNoResults     (* "No results found. Try a more specific address." *)
| AlertFailed.       (* "Sorry, address lookup failed. Please try again." *)

(** A marker on [searchLayer], with the text of its popup. *)
Record Marker := mkMarker {
  m_lat : option Q; m_lon : option Q; m_popup : string
}.

Record Box := mkBox {
  disabled : bool;                       (* btn.disabled *)
  label : string;                        (* btn.textContent *)
  layer : list Marker;                   (* the markers of searchLayer *)
  view : option (option Q * option Q * Z); (* the last map.setView *)
  opened : list string;                  (* the popups opened by
                                            marker.openPopup(), oldest first *)
  alerts : list Alert;                   (* the alerts shown, oldest first *)
  requests : list string;                (* the queries sent, oldest first *)
  pending : list string                  (* [oldLabel] of every activation
                                            that awaits its lookup *)
}.

Definition ZOOM_LEVEL : Z := 10.

(** The box when [init] has built it and wired the listener. *)
Definition init : Box := mkBox false "Search" [] None [] [] [] [].

Section WithBrowser.

(** [String.prototype.trim]. *)
Variable trim : string → string.

(** Whether Leaflet takes the pair as a position; [L.marker] and
    [map.setView] throw when it does not. *)
Variable accepts : option Q → option Q → bool.

(** The submit listener up to its [await]; [value] is [input.value]. *)
Definition submit (value : string) (b : Box) : Box :=
  match trim value with
  | EmptyString => b                                   (* if (!query) return *)
  | query =>
      mkBox true "Searching…" [] (view b) (opened b) (alerts b)
        (requests b ++ [query]) (pending b ++ [label b])
  end.

(** The rest of the [try] block, once the lookup has ended with [o]. *)
Definition afterLookup (o : Outcome) (b : Box) : Box :=
  match o with
  | Rejected =>                                        (* catch *)
      mkBox (disabled b) (label b) (layer b) (view b) (opened b)
        (alerts b ++ [AlertFailed]) (requests b) (pending b)
  | NoResult =>
      mkBox (disabled b) (label b) (layer b) (view b) (opened b)
        (alerts b ++ [AlertNoResults]) (requests b) (pending b)
  | Found r =>
      if accepts (g_lat r) (g_lon r) then
        mkBox (disabled b) (label b)
          (layer b ++ [mkMarker (g_lat r) (g_lon r)
                         (default "Search result" (g_name r))])
          (Some (g_lat r, g_lon r, ZOOM_LEVEL))
          (opened b ++ [default "Search result" (g_name r)])
          (alerts b) (requests b) (pending b)
      else                                             (* L.marker throws: catch *)
        mkBox (disabled b) (label b) (layer b) (view b) (opened b)
          (alerts b ++ [AlertFailed]) (requests b) (pending b)
  end.

(** The lookup of the [i]-th waiting activation ends with [o]: the rest of
    [try], then [finally]. *)
Definition settle (i : nat) (o : Outcome) (b : Box) : Box :=
  match pending b !! i with
  | None => b
  | Some oldLabel =>
      let b := mkBox (disabled b) (label b) (layer b) (view b) (opened b)
                 (alerts b) (requests b) (delete i (pending b)) in
      let b := afterLookup o b in
      mkBox false oldLabel (layer b) (view b) (opened b) (alerts b)
        (requests b) (pending b)
  end.

Inductive Event :=
| Submit (value : string)
| Settle (i : nat) (o : Outcome).

Definition step (e : Event) (b : Box) : Box :=
  match e with
  | Submit value => submit value b
  | Settle i o => settle i o b
  end.

Definition run (evs : list Event) (b : Box) : Box :=
  foldl (fun b e => step e b) b evs.

(** One search after the other: a submit of a blank value, or a submit
    followed by the end of its lookup before the next submit, which is what
    the disabled button allows. *)
Inductive sequential : list Event → Prop :=
| seq_nil : sequential []
| seq_blank value evs :
    trim value = EmptyString → sequential evs →
    sequential (Submit value :: evs)
| seq_search value o evs :
    trim value ≠ EmptyString → sequential evs →
    sequential (Submit value :: Settle 0 o :: evs).

End WithBrowser.

End Search.

(** * Properties *)

(** ** The station order *)

Module OrderFacts.
Import Order.

#[export] Instance desc_trans : Transitive desc.
Proof. intros a b c Hab Hbc. unfold desc in *. by eapply Qle_trans. Qed.

Lemma compare_gt a b : (compareFn a b ?= 0)%Q = Gt → desc b a.
Proof.
  intros H. apply Qgt_alt in H. unfold compareFn, desc in *.
  apply Qlt_le_weak. apply Qlt_minus_iff. exact H.
Qed.

Lemma compare_not_gt a b : (compareFn a b ?= 0)%Q ≠ Gt → desc a b.
Proof.
  intros H. apply Qle_alt in H. unfold compareFn, desc in *.
  apply Qle_minus_iff. apply Qle_minus_iff in H.
  eapply Qle_trans; [exact H|]. apply Qle_lteq. right. ring.
Qed.

Lemma insert_perm a l : insert a l ≡ₚ a :: l.
Proof.
  induction l as [|b l IH]; simpl; [done|].
  destruct (compareFn a b ?= 0)%Q; try done.
  rewrite IH. apply Permutation_swap.
Qed.

Lemma sort_perm l : sort l ≡ₚ l.
Proof.
  induction l as [|a l IH]; simpl; [done|].
  by rewrite insert_perm, IH.
Qed.

Lemma insert_hd a b l :
  desc b a → HdRel desc b l → HdRel desc b (insert a l).
Proof.
  intros Hba Hl. destruct l as [|c l]; simpl; [by constructor|].
  inversion_clear Hl.
  destruct (compareFn a c ?= 0)%Q; by constructor.
Qed.

Lemma insert_sorted a l : Sorted desc l → Sorted desc (insert a l).
Proof.
  induction 1 as [|b l Hl IH Hb]; simpl; [by repeat constructor|].
  destruct (compareFn a b ?= 0)%Q eqn:E.
  - constructor; [by constructor|]. constructor.
    apply compare_not_gt. by rewrite E.
  - constructor; [by constructor|]. constructor.
    apply compare_not_gt. by rewrite E.
  - constructor; [done|]. apply insert_hd; [|done]. by apply compare_gt.
Qed.

Lemma sort_sorted l : StronglySorted desc (sort l).
Proof.
  apply Sorted_StronglySorted; [apply _|].
  induction l as [|a l IH]; simpl; [constructor|]. by apply insert_sorted.
Qed.

Lemma entries_fst i0 ss : map fst (entries i0 ss) = seq i0 (length ss).
Proof.
  revert i0. induction ss as [|s ss IH]; intros i0; simpl; [done|].
  by rewrite IH.
Qed.

Lemma entries_elem i0 ss i q :
  (i, q) ∈ entries i0 ss →
  ∃ s, (i0 <= i)%nat ∧ ss !! (i - i0)%nat = Some s ∧ lat s = q.
Proof.
  revert i0. induction ss as [|s ss IH]; intros i0; simpl.
  - by intros ?%elem_of_nil.
  - intros [Heq|Hin]%elem_of_cons.
    + injection Heq as -> ->. exists s. by rewrite Nat.sub_diag.
    + destruct (IH _ Hin) as (s' & Hle & Hs' & Hq).
      exists s'. split; [lia|]. split; [|done].
      replace (i - i0)%nat with (S (i - S i0)) by lia. done.
Qed.

Lemma of_stations_perm ss : of_stations ss ≡ₚ seq 0 (length ss).
Proof.
  unfold of_stations. rewrite <- entries_fst.
  apply Permutation_map, sort_perm.
Qed.

(** An index of the order names a station, and the sorted entry behind it
    carries that station's latitude. *)
Lemma of_stations_lookup ss n a :
  of_stations ss !! n = Some a →
  ∃ s, ss !! a = Some s ∧ sort (entries 0 ss) !! n = Some (a, lat s).
Proof.
  unfold of_stations. rewrite list_lookup_fmap.
  intros ([i q] & E & ->)%fmap_Some. simpl.
  assert ((i, q) ∈ entries 0 ss) as Hin.
  { rewrite <- (sort_perm (entries 0 ss)). by eapply list_elem_of_lookup_2. }
  destruct (entries_elem _ _ _ _ Hin) as (s & _ & Hs & <-).
  rename i into a.
  rewrite Nat.sub_0_r in Hs. by exists s.
Qed.

Lemma sorted_lookup (l : list Entry) i j a b :
  StronglySorted desc l → (i < j)%nat →
  l !! i = Some a → l !! j = Some b → desc a b.
Proof.
  intros Hs. revert i j. induction Hs as [|c l Hs IH Hc]; intros i j Hij.
  - by rewrite lookup_nil.
  - destruct j as [|j]; [lia|]. destruct i as [|i]; simpl.
    + intros [= ->] Hb. rewrite Forall_forall in Hc. apply Hc.
      by eapply list_elem_of_lookup_2.
    + apply IH. lia.
Qed.

Lemma of_stations_desc ss i j a b sa sb :
  (i < j)%nat →
  of_stations ss !! i = Some a → of_stations ss !! j = Some b →
  ss !! a = Some sa → ss !! b = Some sb →
  (lat sb <= lat sa)%Q.
Proof.
  intros Hij Ha Hb Hsa Hsb.
  destruct (of_stations_lookup _ _ _ Ha) as (sa' & Hsa' & Ea).
  destruct (of_stations_lookup _ _ _ Hb) as (sb' & Hsb' & Eb).
  simplify_eq.
  exact (sorted_lookup _ _ _ _ _ (sort_sorted _) Hij Ea Eb).
Qed.

Lemma of_stations_length ss : length (of_stations ss) = length ss.
Proof. by rewrite (Permutation_length (of_stations_perm ss)), length_seq. Qed.

(** The first index of the order names a station no other station lies
    north of. *)
Lemma of_stations_head ss :
  ss ≠ [] →
  ∃ a s, of_stations ss !! 0%nat = Some a ∧ ss !! a = Some s
         ∧ northernmost ss s.
Proof.
  intros Hne.
  destruct (of_stations ss) as [|a o] eqn:E.
  { pose proof (of_stations_length ss) as Hl. rewrite E in Hl.
    destruct ss; [done|discriminate]. }
  assert (of_stations ss !! 0%nat = Some a) as H0 by by rewrite E.
  destruct (of_stations_lookup _ _ _ H0) as (s & Hs & _).
  exists a, s. split; [by rewrite E in H0|]. split; [done|]. split.
  - by eapply list_elem_of_lookup_2.
  - intros s' [b Hb]%list_elem_of_lookup.
    assert (b ∈ of_stations ss) as Hin.
    { rewrite of_stations_perm. apply elem_of_seq.
      apply lookup_lt_Some in Hb. lia. }
    apply list_elem_of_lookup in Hin as [j Hj].
    destruct j as [|j].
    + rewrite H0 in Hj. simplify_eq. apply Qle_refl.
    + eapply (of_stations_desc ss 0 (S j)); eauto. lia.
Qed.

End OrderFacts.

(** C4.  [rebuildStationOrder] leaves in [stationOrder] a permutation of the
    station indices [0 .. length stations - 1] along which the latitude
    never increases; this holds for every station store (the empty one
    included).  Loading three stations of latitudes -10, 20 and 5, in that
    order, gives the order [1, 2, 0]. *)
Theorem C4_rebuildStationOrder_sorted_permutation :
  (∀ w : World,
     let order := stationOrder (rebuildStationOrder w) in
     order ≡ₚ seq 0 (length (stations w))
     ∧ (∀ i j a b sa sb,
          (i < j)%nat → order !! i = Some a → order !! j = Some b →
          stations w !! a = Some sa → stations w !! b = Some sb →
          (lat sb <= lat sa)%Q)
     ∧ stations (rebuildStationOrder w) = stations w)
  ∧ (∀ lo0 lo1 lo2 : Q,
       stationOrder
         (loadComplete [mkRow (Some (-10)%Q) (Some lo0);
                        mkRow (Some 20%Q) (Some lo1);
                        mkRow (Some 5%Q) (Some lo2)] init_world)
       = [1; 2; 0]%nat).
Proof.
  split.
  - intros w order. subst order. simpl. split; [|split]; [| |done].
    + apply OrderFacts.of_stations_perm.
    + apply OrderFacts.of_stations_desc.
  - intros lo0 lo1 lo2. reflexivity.
Qed.

Lemma C4_witness :
  stationOrder (rebuildStationOrder loadedWorld) = [1; 2; 0]%nat
  ∧ (5 <= 20)%Q.
Proof.
  split; [reflexivity|].
  destruct (proj1 C4_rebuildStationOrder_sorted_permutation loadedWorld)
    as (_ & Hdesc & _).
  exact (Hdesc 0%nat 1%nat 1%nat 2%nat (mkStation 20 2) (mkStation 5 3)
           ltac:(lia) eq_refl eq_refl eq_refl eq_refl).
Defined.

(** ** One continuation of the tour loop *)

Lemma loop_head_effect idx w : Effect w (loop_head idx w).
Proof.
  unfold loop_head.
  destruct (negb (simRunning w)); [constructor|].
  destruct (_ || _); [constructor|].
  destruct (stationOrder w !! _) as [sIndex|]; [|constructor].
  destruct (stations w !! sIndex); constructor.
Qed.

Lemma resume_effect k w : Effect w (resume k w).
Proof.
  destruct k; simpl; try apply loop_head_effect;
    destruct (negb (simRunning w)); constructor.
Qed.

(** With the flag down, a continuation returns at once and changes
    nothing. *)
Lemma resume_stopped k w : simRunning w = false → resume k w = w.
Proof.
  intros H. destruct k; simpl; unfold loop_head; by rewrite H.
Qed.


(** ** Frames *)

Lemma Frame_refl w : TimerInv w → Frame w w.
Proof.
  intros I. split; try done. intros h t Hle Ht.
  pose proof (ti_fresh w I h (mk_is_Some _ _ Ht)). lia.
Qed.

Lemma Frame_trans w1 w2 w3 : Frame w1 w2 → Frame w2 w3 → Frame w1 w3.
Proof.
  intros F G. split.
  - by rewrite (fr_stations _ _ G), (fr_stations _ _ F).
  - by rewrite (fr_order _ _ G), (fr_order _ _ F).
  - by rewrite (fr_state _ _ G), (fr_state _ _ F).
  - by rewrite (fr_ring _ _ G), (fr_ring _ _ F).
  - by rewrite (fr_running _ _ G), (fr_running _ _ F).
  - by rewrite (fr_layer _ _ G), (fr_layer _ _ F).
  - by rewrite (fr_button _ _ G), (fr_button _ _ F).
  - pose proof (fr_next _ _ F). pose proof (fr_next _ _ G). lia.
  - intros h Hh. pose proof (fr_next _ _ F).
    rewrite (fr_old _ _ G) by lia. by apply (fr_old _ _ F).
  - intros h t Hle Ht. pose proof (fr_next _ _ G).
    destruct (decide (h < nextTimer w2)%nat) as [Hlt|Hge].
    + rewrite (fr_old _ _ G) in Ht by done.
      destruct (fr_new _ _ F h t Hle Ht). split; [lia|done].
    + apply (fr_new _ _ G); [lia|done].
Qed.

Lemma sleep_frame ms k w : TimerInv w → Frame w (sleep ms k w).
Proof.
  intros I. split; try done; simpl.
  - lia.
  - intros h Hh. apply lookup_insert_ne. lia.
  - intros h t Hle Ht.
    destruct (decide (h = nextTimer w)) as [->|Hne].
    + rewrite lookup_insert_eq in Ht. injection Ht as <-. split; [lia|done].
    + rewrite lookup_insert_ne in Ht by done.
      pose proof (ti_fresh w I h (mk_is_Some _ _ Ht)). lia.
Qed.

Lemma effect_frame w w' : TimerInv w → Effect w w' → Frame w w'.
Proof.
  intros I [| ms k | target zoom dur k |].
  - by apply Frame_refl.
  - by apply sleep_frame.
  - destruct (Frame_refl w I). by split.
  - destruct (Frame_refl w I). by split.
Qed.

Lemma frame_TimerInv w w' : TimerInv w → Frame w w' → TimerInv w'.
Proof.
  intros I F. split.
  - pose proof (ti_pos w I). pose proof (fr_next _ _ F). lia.
  - intros h [t Ht]. pose proof (fr_next _ _ F).
    destruct (decide (h < nextTimer w)%nat) as [Hlt|Hge]; [lia|].
    apply (fr_new _ _ F h t); [lia|done].
  - intros h Hh. rewrite (fr_ring _ _ F) in Hh.
    destruct (ti_ring w I h Hh) as (Hne & i & Hi & Hrange).
    split; [done|]. exists i. split; [|done].
    rewrite (fr_old _ _ F); [done|].
    apply (ti_fresh w I). by rewrite Hi.
  - intros h ms i Hi. rewrite (fr_ring _ _ F).
    destruct (decide (h < nextTimer w)%nat) as [Hlt|Hge].
    + rewrite (fr_old _ _ F) in Hi by done. by eapply ti_only.
    + destruct (fr_new _ _ F h _ ltac:(lia) Hi) as [_ ?]. done.
Qed.

Lemma frame_GlobalInv w w' : GlobalInv w → Frame w w' → GlobalInv w'.
Proof.
  intros G F. split.
  - rewrite (fr_order _ _ F), (fr_stations _ _ F). apply G.
  - rewrite (fr_layer _ _ F), (fr_stations _ _ F). apply G.
  - rewrite (fr_state _ _ F). apply G.
  - rewrite (fr_running _ _ F), (fr_state _ _ F). apply G.
  - rewrite (fr_running _ _ F), (fr_ring _ _ F). apply G.
Qed.

(** The continuations released by one ['moveend']. *)
Lemma resumes_frame ks w :
  TimerInv w → Frame w (foldl (fun w k => resume k w) w ks).
Proof.
  revert w. induction ks as [|k ks IH]; intros w I; simpl.
  - by apply Frame_refl.
  - pose proof (effect_frame _ _ I (resume_effect k w)) as F.
    eapply Frame_trans; [exact F|]. apply IH. by eapply frame_TimerInv.
Qed.

Lemma resumes_stopped ks w :
  simRunning w = false → foldl (fun w k => resume k w) w ks = w.
Proof.
  intros H. induction ks as [|k ks IH]; simpl; [done|].
  by rewrite resume_stopped.
Qed.

(** ** The timer table stays well formed *)

Lemma TimerInv_ext w w' :
  nextTimer w' = nextTimer w → timers w' = timers w →
  ringInterval w' = ringInterval w → TimerInv w → TimerInv w'.
Proof.
  intros E1 E2 E3 [H1 H2 H3 H4].
  split; rewrite ?E1, ?E2, ?E3; done.
Qed.

Lemma init_TimerInv : TimerInv init_world.
Proof.
  split; simpl; [lia| | |].
  - intros h [t Ht]. by rewrite lookup_empty in Ht.
  - done.
  - intros h ms i Ht. by rewrite lookup_empty in Ht.
Qed.

Lemma nextIdx_range i : (1 <= i <= 7)%nat → (1 <= nextIdx i <= 7)%nat.
Proof.
  intros H. unfold nextIdx. simpl length.
  destruct (Nat.leb_spec 8 (S i)); lia.
Qed.

Lemma ringTick_timers h ms i w :
  timers (ringTick h ms i w) = <[h := Interval ms (nextIdx i)]> (timers w).
Proof. unfold ringTick, drawSingleRing. simpl. by case_bool_decide. Qed.

Lemma drawSingleRing_layer km w :
  ringLayer (drawSingleRing km w) = map (circle km) (stations w).
Proof.
  unfold drawSingleRing. simpl. case_bool_decide as H; [|done].
  simpl. by destruct (stations w).
Qed.

Lemma ringTick_layer h ms i w :
  ringLayer (ringTick h ms i w) = map (circle (coverageSteps !! i)) (stations w).
Proof. unfold ringTick. apply drawSingleRing_layer. Qed.

Lemma ringTick_TimerInv h ms i w :
  TimerInv w → timers w !! h = Some (Interval ms i) →
  TimerInv (ringTick h ms i w).
Proof.
  intros I Hh.
  pose proof (ti_only w I _ _ _ Hh) as Hr.
  destruct (ti_ring w I h Hr) as (Hne & i' & Hi' & Hrange).
  rewrite Hh in Hi'. injection Hi' as -> <-.
  assert (nextTimer (ringTick h RING_STEP_MS i w) = nextTimer w) as E1.
  { unfold ringTick, drawSingleRing. simpl. by case_bool_decide. }
  assert (ringInterval (ringTick h RING_STEP_MS i w) = ringInterval w) as E3.
  { unfold ringTick, drawSingleRing. simpl. by case_bool_decide. }
  split; rewrite ?E1, ?E3, ?ringTick_timers.
  - apply I.
  - intros h' [t Ht]. destruct (decide (h' = h)) as [->|Hd].
    + apply (ti_fresh w I). by rewrite Hh.
    + rewrite lookup_insert_ne in Ht by done.
      apply (ti_fresh w I). by rewrite Ht.
  - intros h' Hh'. rewrite Hr in Hh'. injection Hh' as <-.
    split; [done|]. exists (nextIdx i). rewrite lookup_insert_eq.
    split; [done|]. by apply nextIdx_range.
  - intros h' ms' i' Ht. destruct (decide (h' = h)) as [->|Hd]; [done|].
    rewrite lookup_insert_ne in Ht by done. by eapply ti_only.
Qed.

(** A timeout that fires leaves the table. *)
Lemma timeout_TimerInv h ms k w :
  TimerInv w → timers w !! h = Some (Timeout ms k) →
  TimerInv (set_timers (delete h (timers w)) w).
Proof.
  intros I Hh. split; simpl.
  - apply I.
  - intros h' [t Ht]. apply lookup_delete_Some in Ht as [_ Ht].
    apply (ti_fresh w I). by rewrite Ht.
  - intros h' Hr. destruct (ti_ring w I h' Hr) as (Hne & i & Hi & Hrange).
    split; [done|]. exists i. split; [|done].
    rewrite lookup_delete_ne; [done|]. intros ->. congruence.
  - intros h' ms' i Ht. apply lookup_delete_Some in Ht as [_ Ht].
    by eapply ti_only.
Qed.

(** [if (ringInterval) clearInterval(ringInterval)] removes every interval
    there is. *)
Lemma cleared_no_interval w h t :
  TimerInv w →
  timers (if truthy (ringInterval w)
          then clearInterval (default 0%nat (ringInterval w)) w else w) !! h
    = Some t →
  isInterval t = false ∧ timers w !! h = Some t.
Proof.
  intros I Ht. destruct t as [ms i|ms k].
  - exfalso.
    assert (timers w !! h = Some (Interval ms i)) as Hw.
    { destruct (truthy (ringInterval w)); [|done].
      simpl in Ht. by apply lookup_delete_Some in Ht as [_ Ht]. }
    pose proof (ti_only w I _ _ _ Hw) as Hr.
    destruct (ti_ring w I h Hr) as (Hne & _).
    rewrite Hr in Ht. simpl in Ht.
    destruct (Nat.eqb_spec h 0); [done|]. simpl in Ht.
    by rewrite lookup_delete_eq in Ht.
  - split; [done|].
    destruct (truthy (ringInterval w)); [|done].
    simpl in Ht. by apply lookup_delete_Some in Ht as [_ Ht].
Qed.

Lemma startRingCycle_TimerInv w : TimerInv w → TimerInv (startRingCycle w).
Proof.
  intros I. unfold startRingCycle.
  set (w1 := clearCoverage w).
  assert (TimerInv w1) as I1 by by apply (TimerInv_ext w).
  clearbody w1. clear I w.
  set (w2 := if truthy _ then _ else _).
  assert (nextTimer w2 = nextTimer w1) as En.
  { unfold w2. by destruct (truthy _). }
  pose proof (cleared_no_interval w1) as Hc. fold w2 in Hc.
  clearbody w2. simpl. split; simpl.
  - lia.
  - intros h [t Ht]. rewrite En. destruct (decide (h = nextTimer w2)) as [->|Hd].
    + lia.
    + rewrite lookup_insert_ne in Ht by done.
      destruct (Hc h t I1 Ht) as [_ Ht'].
      pose proof (ti_fresh w1 I1 h (mk_is_Some _ _ Ht')). lia.
  - intros h [= <-]. split.
    + pose proof (ti_pos w1 I1). lia.
    + exists 1%nat. rewrite lookup_insert_eq. split; [done|lia].
  - intros h ms i Ht. destruct (decide (h = nextTimer w2)) as [->|Hd]; [done|].
    rewrite lookup_insert_ne in Ht by done.
    by destruct (Hc h _ I1 Ht).
Qed.

Lemma stopRingCycle_TimerInv w : TimerInv w → TimerInv (stopRingCycle w).
Proof.
  intros I. unfold stopRingCycle.
  set (w2 := if truthy _ then _ else _).
  assert (nextTimer w2 = nextTimer w) as En.
  { unfold w2. by destruct (truthy _). }
  pose proof (cleared_no_interval w) as Hc. fold w2 in Hc.
  clearbody w2. split; simpl.
  - rewrite En. apply I.
  - intros h [t Ht]. rewrite En. destruct (Hc h t I Ht) as [_ Ht'].
    apply (ti_fresh w I). by rewrite Ht'.
  - done.
  - intros h ms i Ht. by destruct (Hc h _ I Ht).
Qed.

Lemma zoomStationsLoop_TimerInv w : TimerInv w → TimerInv (zoomStationsLoop w).
Proof.
  intros I. unfold zoomStationsLoop.
  set (w1 := if bool_decide _ then _ else _).
  assert (TimerInv w1) as I1.
  { unfold w1. case_bool_decide; [|done]. by apply (TimerInv_ext w). }
  eapply frame_TimerInv; [exact I1|].
  apply effect_frame; [done|]. apply loop_head_effect.
Qed.

Lemma drawSingleRing_TimerInv km w : TimerInv w → TimerInv (drawSingleRing km w).
Proof.
  intros I. unfold drawSingleRing. simpl.
  case_bool_decide; by apply (TimerInv_ext w).
Qed.

Lemma click_TimerInv w : TimerInv w → TimerInv (click w).
Proof.
  intros I. unfold click.
  set (s := nextCoverageState (coverageState w)).
  set (w0 := stopSimulation _).
  assert (TimerInv w0) as I0.
  { unfold w0, stopSimulation. apply stopRingCycle_TimerInv.
    by apply (TimerInv_ext w). }
  clearbody w0.
  destruct (s =? 0); [by apply (TimerInv_ext w0)|].
  destruct (_ && _); [by apply drawSingleRing_TimerInv|].
  destruct (s =? 8); [|done].
  unfold startSimulation. destruct (simRunning w0); [done|].
  apply zoomStationsLoop_TimerInv, startRingCycle_TimerInv.
  by apply (TimerInv_ext w0).
Qed.

Lemma loadRows_frame data w :
  nextTimer (foldl loadRow w data) = nextTimer w
  ∧ timers (foldl loadRow w data) = timers w
  ∧ ringInterval (foldl loadRow w data) = ringInterval w
  ∧ coverageState (foldl loadRow w data) = coverageState w
  ∧ simRunning (foldl loadRow w data) = simRunning w
  ∧ flyLog (foldl loadRow w data) = flyLog w
  ∧ listeners (foldl loadRow w data) = listeners w.
Proof.
  revert w. induction data as [|site data IH]; intros w; simpl; [done|].
  destruct (IH (loadRow w site)) as (-> & -> & -> & -> & -> & -> & ->).
  unfold loadRow. by destruct (r_lat site), (r_lon site).
Qed.

Lemma loadComplete_TimerInv data w : TimerInv w → TimerInv (loadComplete data w).
Proof.
  intros I. unfold loadComplete. apply drawSingleRing_TimerInv.
  destruct (loadRows_frame data w) as (E1 & E2 & E3 & _).
  by apply (TimerInv_ext w).
Qed.

Lemma fire_TimerInv h w : TimerInv w → TimerInv (fire h w).
Proof.
  intros I. unfold fire. destruct (timers w !! h) as [[ms i|ms k]|] eqn:E.
  - by apply ringTick_TimerInv.
  - pose proof (timeout_TimerInv _ _ _ _ I E) as I'.
    eapply frame_TimerInv; [exact I'|].
    apply effect_frame; [done|]. apply resume_effect.
  - done.
Qed.

Lemma moveEnd_TimerInv w : TimerInv w → TimerInv (moveEnd w).
Proof.
  intros I. unfold moveEnd.
  assert (TimerInv (set_listeners [] w)) as I' by by apply (TimerInv_ext w).
  eapply frame_TimerInv; [exact I'|]. by apply resumes_frame.
Qed.

Lemma step_TimerInv e w : TimerInv w → TimerInv (step e w).
Proof.
  destruct e; simpl.
  - apply click_TimerInv.
  - apply fire_TimerInv.
  - apply moveEnd_TimerInv.
  - apply loadComplete_TimerInv.
Qed.

Lemma run_TimerInv evs w : TimerInv w → TimerInv (run evs w).
Proof.
  revert w. induction evs as [|e evs IH]; intros w I; simpl; [done|].
  apply IH. by apply step_TimerInv.
Qed.

(** ** The globals stay consistent *)

Lemma GlobalInv_ext w w' :
  stations w' = stations w → stationOrder w' = stationOrder w →
  ringLayer w' = ringLayer w → coverageState w' = coverageState w →
  simRunning w' = simRunning w → ringInterval w' = ringInterval w →
  GlobalInv w → GlobalInv w'.
Proof.
  intros E1 E2 E3 E4 E5 E6 [H1 H2 H3 H4 H5].
  split; rewrite ?E1, ?E2, ?E3, ?E4, ?E5, ?E6; done.
Qed.

Lemma init_GlobalInv : GlobalInv init_world.
Proof.
  split; simpl; try done; try lia.
Qed.

Lemma nextCoverageState_range s :
  0 <= s <= 8 → 0 <= nextCoverageState s <= 8.
Proof.
  intros H. unfold nextCoverageState. destruct (Z.ltb_spec 8 (s + 1)); lia.
Qed.

(** What [stopSimulation] leaves behind. *)
Lemma stopSimulation_fields w :
  let w' := stopSimulation w in
  simRunning w' = false ∧ ringInterval w' = None
  ∧ stations w' = stations w ∧ stationOrder w' = stationOrder w
  ∧ ringLayer w' = ringLayer w ∧ coverageState w' = coverageState w
  ∧ button w' = button w ∧ nextTimer w' = nextTimer w
  ∧ listeners w' = listeners w ∧ flyLog w' = flyLog w
  ∧ uncaught w' = uncaught w.
Proof.
  unfold stopSimulation, stopRingCycle. simpl.
  by destruct (truthy (ringInterval w)).
Qed.

(** What [startRingCycle] leaves behind. *)
Lemma startRingCycle_fields w :
  let w' := startRingCycle w in
  ringInterval w' = Some (nextTimer w) ∧ nextTimer w' = S (nextTimer w)
  ∧ timers w' !! nextTimer w = Some (Interval RING_STEP_MS 1)
  ∧ ringLayer w' = []
  ∧ simRunning w' = simRunning w
  ∧ stations w' = stations w ∧ stationOrder w' = stationOrder w
  ∧ coverageState w' = coverageState w ∧ button w' = button w
  ∧ listeners w' = listeners w ∧ flyLog w' = flyLog w
  ∧ uncaught w' = uncaught w.
Proof.
  unfold startRingCycle. simpl.
  destruct (truthy (ringInterval w)); simpl;
    by rewrite lookup_insert_eq.
Qed.

Lemma zoomStationsLoop_GlobalInv w :
  TimerInv w → GlobalInv w → GlobalInv (zoomStationsLoop w).
Proof.
  intros I G. unfold zoomStationsLoop.
  set (w1 := if bool_decide _ then _ else _).
  assert (TimerInv w1 ∧ GlobalInv w1) as [I1 G1].
  { unfold w1. case_bool_decide; [|done]. split.
    - by apply (TimerInv_ext w).
    - destruct G. by split. }
  eapply frame_GlobalInv; [exact G1|].
  apply effect_frame; [done|]. apply loop_head_effect.
Qed.

Lemma drawSingleRing_GlobalInv km w : GlobalInv w → GlobalInv (drawSingleRing km w).
Proof.
  intros G. pose proof (drawSingleRing_layer km w) as Hl.
  assert (stations (drawSingleRing km w) = stations w
          ∧ stationOrder (drawSingleRing km w) = stationOrder w
          ∧ coverageState (drawSingleRing km w) = coverageState w
          ∧ simRunning (drawSingleRing km w) = simRunning w
          ∧ ringInterval (drawSingleRing km w) = ringInterval w)
    as (E1 & E2 & E3 & E4 & E5).
  { unfold drawSingleRing. simpl. by case_bool_decide. }
  destruct G. split; rewrite ?E1, ?E2, ?E3, ?E4, ?E5, ?Hl; try done.
  by intros ->.
Qed.

Lemma click_GlobalInv w : TimerInv w → GlobalInv w → GlobalInv (click w).
Proof.
  intros I G. unfold click.
  pose proof (nextCoverageState_range _ (gi_state w G)) as Hs.
  set (s := nextCoverageState (coverageState w)) in *.
  set (wb := set_button _ _).
  assert (TimerInv (stopSimulation wb)) as I0.
  { unfold stopSimulation. apply stopRingCycle_TimerInv.
    by apply (TimerInv_ext w). }
  destruct (stopSimulation_fields wb)
    as (R & Ri & St & Or & La & Cs & _).
  set (w0 := stopSimulation wb) in *. clearbody w0.
  simpl in St, Or, La, Cs.
  assert (stationOrder w0 = Order.of_stations (stations w0)) as HO.
  { rewrite St, Or. apply G. }
  assert (stations w0 = [] → ringLayer w0 = []) as HL.
  { rewrite St, La. apply G. }
  assert (is_Some (ringInterval w0) ↔ false = true) as HR.
  { rewrite Ri. split; [by intros [? ?]|done]. }
  destruct (Z.eqb_spec s 0) as [E0|N0].
  { split; simpl; try done; rewrite ?Cs, ?R; try done.
    rewrite E0. by rewrite bool_decide_eq_false_2. }
  destruct (_ && _) eqn:E17.
  { apply drawSingleRing_GlobalInv. split; rewrite ?Cs, ?R; try done.
    rewrite bool_decide_eq_false_2; [done|]. lia. }
  destruct (Z.eqb_spec s 8) as [E8|N8].
  - unfold startSimulation. rewrite R.
    set (w1 := set_simRunning true w0).
    apply zoomStationsLoop_GlobalInv.
    { apply startRingCycle_TimerInv. by apply (TimerInv_ext w0). }
    destruct (startRingCycle_fields w1)
      as (Hri & _ & _ & Hla & Hsr & Hst & Hor & Hcs & _).
    split; rewrite ?Hri, ?Hla, ?Hsr, ?Hst, ?Hor, ?Hcs; simpl;
      rewrite ?Cs, ?E8; try done.
  - split; rewrite ?Cs, ?R; try done.
    by rewrite bool_decide_eq_false_2.
Qed.

Lemma loadRows_order data w :
  simRunning (foldl loadRow w data) = simRunning w
  ∧ ringInterval (foldl loadRow w data) = ringInterval w
  ∧ coverageState (foldl loadRow w data) = coverageState w.
Proof. destruct (loadRows_frame data w) as (_ & _ & ? & ? & ? & _). done. Qed.

Lemma loadRows_stations data w :
  stations (foldl loadRow w data) = stations w ++ validRows data
  ∧ ringLayer (foldl loadRow w data) = ringLayer w.
Proof.
  revert w. induction data as [|site data IH]; intros w; simpl.
  - by rewrite app_nil_r.
  - destruct (IH (loadRow w site)) as (-> & ->).
    unfold loadRow, validRows. simpl.
    destruct (r_lat site), (r_lon site); simpl; try done.
    by rewrite <- app_assoc.
Qed.

Lemma loadComplete_GlobalInv data w : GlobalInv w → GlobalInv (loadComplete data w).
Proof.
  intros G. unfold loadComplete. apply drawSingleRing_GlobalInv.
  destruct (loadRows_order data w) as (E1 & E2 & E3).
  destruct (loadRows_stations data w) as (Hst & Hla).
  split; simpl; rewrite ?E1, ?E2, ?E3; try apply G; [done|].
  rewrite Hst, Hla. intros [H _]%app_eq_nil. by apply G.
Qed.

Lemma fire_GlobalInv h w : TimerInv w → GlobalInv w → GlobalInv (fire h w).
Proof.
  intros I G. unfold fire. destruct (timers w !! h) as [[ms i|ms k]|] eqn:E.
  - unfold ringTick.
    apply (GlobalInv_ext (drawSingleRing (coverageSteps !! i) w)); try done.
    by apply drawSingleRing_GlobalInv.
  - pose proof (timeout_TimerInv _ _ _ _ I E) as I'.
    eapply frame_GlobalInv; [|apply effect_frame; [exact I'|apply resume_effect]].
    by apply (GlobalInv_ext w).
  - done.
Qed.

Lemma moveEnd_GlobalInv w : TimerInv w → GlobalInv w → GlobalInv (moveEnd w).
Proof.
  intros I G. unfold moveEnd.
  eapply frame_GlobalInv; [|apply resumes_frame; by apply (TimerInv_ext w)].
  by apply (GlobalInv_ext w).
Qed.

Lemma step_GlobalInv e w : TimerInv w → GlobalInv w → GlobalInv (step e w).
Proof.
  destruct e; simpl.
  - apply click_GlobalInv.
  - apply fire_GlobalInv.
  - apply moveEnd_GlobalInv.
  - intros _. apply loadComplete_GlobalInv.
Qed.

Lemma run_GlobalInv evs w : TimerInv w → GlobalInv w → GlobalInv (run evs w).
Proof.
  revert w. induction evs as [|e evs IH]; intros w I G; simpl; [done|].
  apply IH; [by apply step_TimerInv|by apply step_GlobalInv].
Qed.

(** Every state the page can be in. *)
Lemma reachable_inv evs :
  TimerInv (run evs init_world) ∧ GlobalInv (run evs init_world).
Proof.
  split; [apply run_TimerInv|apply run_GlobalInv];
    auto using init_TimerInv, init_GlobalInv.
Qed.

(** ** What the events leave alone *)

(** A continuation of the loop writes no global, whatever the state. *)
Lemma effect_globals w w' :
  Effect w w' →
  stations w' = stations w ∧ stationOrder w' = stationOrder w
  ∧ coverageState w' = coverageState w ∧ ringInterval w' = ringInterval w
  ∧ simRunning w' = simRunning w ∧ ringLayer w' = ringLayer w
  ∧ button w' = button w.
Proof. by intros []. Qed.

Lemma resumes_globals ks w :
  let w' := foldl (fun w k => resume k w) w ks in
  stations w' = stations w ∧ stationOrder w' = stationOrder w
  ∧ coverageState w' = coverageState w ∧ ringInterval w' = ringInterval w
  ∧ simRunning w' = simRunning w ∧ ringLayer w' = ringLayer w
  ∧ button w' = button w.
Proof.
  revert w. induction ks as [|k ks IH]; intros w; simpl; [done|].
  destruct (IH (resume k w)) as (-> & -> & -> & -> & -> & -> & ->).
  apply effect_globals, resume_effect.
Qed.

Lemma drawSingleRing_globals km w :
  let w' := drawSingleRing km w in
  stations w' = stations w ∧ stationOrder w' = stationOrder w
  ∧ coverageState w' = coverageState w ∧ ringInterval w' = ringInterval w
  ∧ simRunning w' = simRunning w ∧ button w' = button w
  ∧ timers w' = timers w ∧ nextTimer w' = nextTimer w
  ∧ listeners w' = listeners w ∧ flyLog w' = flyLog w
  ∧ uncaught w' = uncaught w.
Proof. unfold drawSingleRing. simpl. by case_bool_decide. Qed.

(** Only a button activation writes [coverageState], [simRunning] and
    [ringInterval]. *)
Lemma quiet_step_globals e w :
  isClick e = false →
  coverageState (step e w) = coverageState w
  ∧ simRunning (step e w) = simRunning w
  ∧ ringInterval (step e w) = ringInterval w.
Proof.
  destruct e as [|h| |data]; simpl; [done| | |]; intros _.
  - unfold fire. destruct (timers w !! h) as [[ms i|ms k]|]; [| |done].
    + unfold ringTick. simpl.
      by destruct (drawSingleRing_globals (coverageSteps !! i) w)
        as (_ & _ & -> & -> & -> & _).
    + by destruct (effect_globals _ _
                     (resume_effect k (set_timers (delete h (timers w)) w)))
        as (_ & _ & -> & -> & -> & _).
  - unfold moveEnd.
    by destruct (resumes_globals (listeners w) (set_listeners [] w))
      as (_ & _ & -> & -> & -> & _).
  - unfold loadComplete.
    destruct (drawSingleRing_globals (coverageStep 7)
                (set_button (Some (mkButton 7 (coverageStep 7)))
                   (rebuildStationOrder (foldl loadRow w data))))
      as (_ & _ & -> & -> & -> & _). simpl.
    by destruct (loadRows_frame data w) as (_ & _ & -> & -> & -> & _).
Qed.

Lemma quiet_run_globals evs w :
  quiet evs →
  coverageState (run evs w) = coverageState w
  ∧ simRunning (run evs w) = simRunning w
  ∧ ringInterval (run evs w) = ringInterval w.
Proof.
  intros Hq. revert w. induction Hq as [|e evs He Hq IH]; intros w; [done|].
  simpl. destruct (IH (step e w)) as (-> & -> & ->).
  by apply quiet_step_globals.
Qed.

(** With the flag down and no activation, nobody calls [map.flyTo]. *)
Lemma quiet_step_stopped e w :
  isClick e = false → simRunning w = false → flyLog (step e w) = flyLog w.
Proof.
  destruct e as [|h| |data]; simpl; [done| | |]; intros _ Hs.
  - unfold fire. destruct (timers w !! h) as [[ms i|ms k]|]; [| |done].
    + unfold ringTick. simpl.
      by destruct (drawSingleRing_globals (coverageSteps !! i) w)
        as (_ & _ & _ & _ & _ & _ & _ & _ & _ & -> & _).
    + by rewrite resume_stopped.
  - unfold moveEnd. by rewrite resumes_stopped.
  - unfold loadComplete.
    destruct (drawSingleRing_globals (coverageStep 7)
                (set_button (Some (mkButton 7 (coverageStep 7)))
                   (rebuildStationOrder (foldl loadRow w data))))
      as (_ & _ & _ & _ & _ & _ & _ & _ & _ & -> & _). simpl.
    by destruct (loadRows_frame data w) as (_ & _ & _ & _ & _ & -> & _).
Qed.

Lemma quiet_run_stopped evs w :
  quiet evs → simRunning w = false → flyLog (run evs w) = flyLog w.
Proof.
  intros Hq. revert w. induction Hq as [|e evs He Hq IH]; intros w Hs; [done|].
  simpl. rewrite IH.
  - by apply quiet_step_stopped.
  - by destruct (quiet_step_globals e w He) as (_ & -> & _).
Qed.

(** ** The claims *)

(** C2.  Wherever the tour loop is parked, when it is resumed with the
    running flag lowered it returns at once: the state is left as it was, so
    no further [flyTo] is issued and no further sleep is started.  A call of
    [zoomStationsLoop] with the flag lowered issues no [flyTo] and parks
    nothing, whatever the station store holds; and as long as no activation
    raises the flag again, no event makes any loop call [flyTo]. *)
Theorem C2_loop_exits_when_flag_lowered (w : World) :
  simRunning w = false →
  (∀ k, resume k w = w)
  ∧ (flyLog (zoomStationsLoop w) = flyLog w
     ∧ listeners (zoomStationsLoop w) = listeners w
     ∧ timers (zoomStationsLoop w) = timers w
     ∧ uncaught (zoomStationsLoop w) = uncaught w)
  ∧ (∀ evs, quiet evs → flyLog (run evs (zoomStationsLoop w)) = flyLog w).
Proof.
  intros Hs.
  assert (∀ w0, simRunning w0 = false → loop_head 0 w0 = w0) as Hh.
  { intros w0 H0. unfold loop_head. by rewrite H0. }
  split; [|split].
  - intros k. by apply resume_stopped.
  - unfold zoomStationsLoop. rewrite Hh; by case_bool_decide.
  - intros evs Hq. rewrite quiet_run_stopped; [|done|].
    + unfold zoomStationsLoop. rewrite Hh; by case_bool_decide.
    + unfold zoomStationsLoop. rewrite Hh; by case_bool_decide.
Qed.

(** In [stoppedWorld] the loop is parked on its first fly and the flag is
    down. *)
Lemma C2_witness :
  simRunning stoppedWorld = false
  ∧ listeners stoppedWorld = [AwaitFlyBase1 0 (20%Q, 2%Q)]
  ∧ resume (AwaitFlyBase1 0 (20%Q, 2%Q)) stoppedWorld = stoppedWorld.
Proof.
  split; [reflexivity|]. split; [reflexivity|].
  exact (proj1 (C2_loop_exits_when_flag_lowered stoppedWorld eq_refl)
           (AwaitFlyBase1 0 (20%Q, 2%Q))).
Defined.

Lemma click_state w :
  coverageState (click w) = nextCoverageState (coverageState w).
Proof.
  unfold click.
  set (s := nextCoverageState (coverageState w)).
  set (wb := set_button _ _).
  destruct (stopSimulation_fields wb) as (R & _ & _ & _ & _ & Cs & _).
  set (w0 := stopSimulation wb) in *. clearbody w0. simpl in Cs.
  destruct (s =? 0); [done|].
  destruct (_ && _).
  { by destruct (drawSingleRing_globals (coverageStep s) w0) as (_ & _ & -> & _). }
  destruct (s =? 8); [|done].
  unfold startSimulation. rewrite R. unfold zoomStationsLoop.
  set (w1 := if bool_decide _ then _ else _).
  destruct (effect_globals _ _ (loop_head_effect 0 w1)) as (_ & _ & -> & _).
  destruct (startRingCycle_fields (set_simRunning true w0))
    as (_ & _ & _ & _ & _ & _ & _ & Hc & _).
  unfold w1. case_bool_decide; [unfold rebuildStationOrder|]; simpl in *;
    by rewrite Hc.
Qed.

Lemma clicks_state n w :
  coverageState (Nat.iter n (step Click) w)
  = Nat.iter n nextCoverageState (coverageState w).
Proof.
  induction n as [|n IH]; simpl; [done|]. by rewrite click_state, IH.
Qed.

(** C3.  From a state [s] within [0 .. 8] an activation leads to
    [(s + 1) mod 9], and nine activations lead back to [s]. *)
Theorem C3_activation_increments_mod_9 (w : World) :
  0 <= coverageState w <= 8 →
  coverageState (step Click w) = (coverageState w + 1) mod 9
  ∧ coverageState (Nat.iter 9 (step Click) w) = coverageState w.
Proof.
  intros Hs. split.
  - simpl. rewrite click_state. unfold nextCoverageState.
    destruct (Z.ltb_spec 8 (coverageState w + 1)).
    + replace (coverageState w) with 8 by lia. done.
    + symmetry. apply Z.mod_small. lia.
  - rewrite clicks_state.
    assert (coverageState w = 0 ∨ coverageState w = 1 ∨ coverageState w = 2
            ∨ coverageState w = 3 ∨ coverageState w = 4 ∨ coverageState w = 5
            ∨ coverageState w = 6 ∨ coverageState w = 7 ∨ coverageState w = 8)
      as H by lia.
    destruct H as [->|[->|[->|[->|[->|[->|[->|[->| ->]]]]]]]]; reflexivity.
Qed.

Lemma C3_witness :
  0 <= coverageState init_world <= 8
  ∧ coverageState (step Click init_world) = 8
  ∧ coverageState (Nat.iter 9 (step Click) init_world) = 7.
Proof.
  assert (0 <= coverageState init_world <= 8) as H by (simpl; lia).
  split; [exact H|].
  exact (C3_activation_increments_mod_9 init_world H).
Defined.

(** C8.  Whatever the radius and the state, [clearCoverage] after
    [drawSingleRing] leaves no ring on the layer. *)
Theorem C8_draw_then_clear_is_empty (km : option Q) (w : World) :
  ringLayer (clearCoverage (drawSingleRing km w)) = [].
Proof. reflexivity. Qed.

(** C9.  With no station in the store [drawSingleRing] puts no shape on the
    ring layer and raises nothing: it only empties the layer, and in every
    state the page can reach with an empty store the layer is empty already,
    so the call changes nothing at all. *)
Theorem C9_drawSingleRing_empty_store (km : option Q) (w : World) :
  stations w = [] →
  ringLayer (drawSingleRing km w) = []
  ∧ uncaught (drawSingleRing km w) = uncaught w
  ∧ drawSingleRing km w = clearCoverage w
  ∧ (∀ evs, w = run evs init_world → drawSingleRing km w = w).
Proof.
  intros Hs.
  assert (drawSingleRing km w = clearCoverage w) as E.
  { unfold drawSingleRing. rewrite bool_decide_eq_true_2; [done|].
    simpl. by rewrite Hs. }
  rewrite E. split; [done|]. split; [done|]. split; [done|].
  intros evs ->. destruct (reachable_inv evs) as [_ G].
  pose proof (gi_layer _ G Hs) as Hl.
  unfold clearCoverage, set_ringLayer. rewrite <- Hl.
  by destruct (run evs init_world).
Qed.

Lemma C9_witness :
  stations init_world = []
  ∧ ringLayer (drawSingleRing (Some 10%Q) init_world) = []
  ∧ uncaught (drawSingleRing (Some 10%Q) init_world) = uncaught init_world.
Proof.
  split; [reflexivity|].
  destruct (C9_drawSingleRing_empty_store (Some 10%Q) init_world eq_refl)
    as (H1 & H2 & _).
  exact (conj H1 H2).
Defined.

(** C5 as the spec has it fails twice over: the value [coverageState] holds
    from the start is 7, the very value of the load-time default, and the
    load does not bring the variable back to 7 when an activation came
    first. *)
Lemma C5_counterexample :
  ¬ (coverageState init_world ≠ 7) ∧ coverageState earlyClickWorld ≠ 7.
Proof. split; [by intros H|]. by vm_compute. Qed.

(** C5, amended.  When no activation comes before it, the end of the load
    finds and leaves [coverageState] at 7, writes the look of state 7 to the
    button and draws the 40 km ring around every station; 7 is also the
    value the variable holds from the start. *)
Theorem C5_state_7_after_load (evs : list Event) (data : list Row) :
  quiet evs →
  coverageState (run (evs ++ [LoadComplete data]) init_world) = 7
  ∧ button (run (evs ++ [LoadComplete data]) init_world)
    = Some (mkButton 7 (Some 40%Q))
  ∧ ringLayer (run (evs ++ [LoadComplete data]) init_world)
    = map (circle (Some 40%Q))
          (stations (run (evs ++ [LoadComplete data]) init_world))
  ∧ coverageState init_world = 7.
Proof.
  intros Hq. unfold run. rewrite foldl_app. fold (run evs init_world). simpl.
  set (w := run evs init_world).
  destruct (quiet_step_globals (LoadComplete data) w eq_refl) as (Hc & _).
  simpl in Hc. rewrite Hc.
  destruct (quiet_run_globals evs init_world Hq) as (Hc' & _). fold w in Hc'.
  split; [by rewrite Hc'|]. unfold loadComplete.
  rewrite drawSingleRing_layer.
  by destruct (drawSingleRing_globals (coverageStep 7)
       (set_button (Some (mkButton 7 (coverageStep 7)))
          (rebuildStationOrder (foldl loadRow w data))))
    as (-> & _ & _ & _ & _ & -> & _).
Qed.

Lemma C5_witness :
  quiet [MoveEnd]
  ∧ coverageState (run ([MoveEnd] ++ [LoadComplete sampleRows]) init_world) = 7
  ∧ button (run ([MoveEnd] ++ [LoadComplete sampleRows]) init_world)
    = Some (mkButton 7 (Some 40%Q)).
Proof.
  assert (quiet [MoveEnd]) as Hq by (repeat constructor).
  split; [exact Hq|].
  destruct (C5_state_7_after_load [MoveEnd] sampleRows Hq) as (H1 & H2 & _).
  exact (conj H1 H2).
Defined.

(** ** The ring cycle *)

Lemma nextIdx_iter n : Nat.iter n nextIdx 1%nat = S (n mod 7).
Proof.
  induction n as [|n IH]; [done|].
  simpl Nat.iter. rewrite IH. unfold nextIdx. simpl length.
  pose proof (Nat.mod_upper_bound n 7 ltac:(lia)) as Hlt.
  pose proof (Nat.div_mod_eq n 7) as Hn.
  destruct (Nat.leb_spec 8 (S (S (n mod 7)))) as [Hle|Hgt].
  - f_equal. apply (Nat.mod_unique (S n) 7 (S (n / 7)) 0); lia.
  - f_equal. apply (Nat.mod_unique (S n) 7 (n / 7) (S (n mod 7))); lia.
Qed.

(** The radii of the cycle are the steps after the leading 0. *)
Lemma cycle_step m : coverageSteps !! S m = cycleRadii !! m.
Proof. reflexivity. Qed.

Lemma cycleRadii_lookup m :
  (m < 7)%nat → ∃ km, cycleRadii !! m = Some km ∧ ¬ (km == 0)%Q.
Proof.
  intros Hm.
  do 7 (destruct m as [|m]; [eexists; split; [reflexivity|done]|]). lia.
Qed.

(** Without an activation the ring-cycle timer stays, and the index in its
    closure moves only when the timer itself fires. *)
Lemma quiet_step_cycle e w h ms i :
  TimerInv w → isClick e = false →
  timers w !! h = Some (Interval ms i) →
  timers (step e w) !! h
  = Some (Interval ms (if isFire h e then nextIdx i else i)).
Proof.
  intros I He Hh.
  assert (h < nextTimer w)%nat as Hlt.
  { apply (ti_fresh w I). by rewrite Hh. }
  destruct e as [|h'| |data]; simpl; [done| | |].
  - unfold fire. case_bool_decide as Heq.
    + subst h'. rewrite Hh, ringTick_timers. by rewrite lookup_insert_eq.
    + destruct (timers w !! h') as [[ms' i'|ms' k]|] eqn:E; [| |done].
      * rewrite ringTick_timers. by rewrite lookup_insert_ne.
      * pose proof (timeout_TimerInv _ _ _ _ I E) as I'.
        rewrite (fr_old _ _ (effect_frame _ _ I' (resume_effect k _)));
          [|done].
        simpl. by rewrite lookup_delete_ne.
  - unfold moveEnd.
    assert (TimerInv (set_listeners [] w)) as I' by by apply (TimerInv_ext w).
    by rewrite (fr_old _ _ (resumes_frame (listeners w) _ I')).
  - unfold loadComplete.
    destruct (drawSingleRing_globals (coverageStep 7)
                (set_button (Some (mkButton 7 (coverageStep 7)))
                   (rebuildStationOrder (foldl loadRow w data))))
      as (_ & _ & _ & _ & _ & _ & -> & _). simpl.
    by destruct (loadRows_frame data w) as (_ & -> & _).
Qed.

Lemma quiet_run_cycle evs w h ms i :
  TimerInv w → quiet evs →
  timers w !! h = Some (Interval ms i) →
  timers (run evs w) !! h
  = Some (Interval ms (Nat.iter (ticks h evs) nextIdx i)).
Proof.
  intros I Hq. revert w i I.
  induction Hq as [|e evs He Hq IH]; intros w i I Hh; [done|].
  simpl. rewrite (IH (step e w) (if isFire h e then nextIdx i else i)).
  - unfold ticks. rewrite filter_cons.
    destruct (isFire h e); simpl; [|done].
    by rewrite <- Nat.iter_succ_r.
  - by apply step_TimerInv.
  - by apply quiet_step_cycle.
Qed.

(** In a reachable state the handle in [ringInterval] names the one interval
    there is, and without a handle there is none. *)
Lemma intervalTimers_inv w :
  TimerInv w →
  intervalTimers w
  = match ringInterval w with
    | Some h => match timers w !! h with
                | Some t => {[ h := t ]}
                | None => ∅
                end
    | None => ∅
    end.
Proof.
  intros I. apply map_eq. intros h. unfold intervalTimers.
  destruct (filter _ (timers w) !! h) as [t|] eqn:E.
  - apply map_lookup_filter_Some in E as [Ht Hi]. simpl in Hi.
    destruct t as [ms i|]; [|done].
    rewrite (ti_only w I _ _ _ Ht), Ht. by rewrite lookup_singleton_eq.
  - apply map_lookup_filter_None in E.
    destruct (ringInterval w) as [h'|] eqn:Hr; [|done].
    destruct (ti_ring w I h' Hr) as (_ & i & Hi & _). rewrite Hi.
    destruct (decide (h' = h)) as [->|Hd].
    + destruct E as [E|E]; [congruence|]. by destruct (E _ Hi).
    + by rewrite lookup_singleton_ne.
Qed.

(** C7.  In every state the page can reach there is at most one ring-cycle
    timer.  [startRingCycle] leaves exactly one, the one it installs (any
    earlier one is cancelled), with its handle in [ringInterval];
    [stopRingCycle] leaves none and a null handle, and the rings on the
    layer are the ones that were there. *)
Theorem C7_single_ring_timer (evs : list Event) :
  (size (intervalTimers (run evs init_world)) <= 1)%nat
  ∧ intervalTimers (startRingCycle (run evs init_world))
    = {[ nextTimer (run evs init_world) := Interval RING_STEP_MS 1 ]}
  ∧ ringInterval (startRingCycle (run evs init_world))
    = Some (nextTimer (run evs init_world))
  ∧ intervalTimers (stopRingCycle (run evs init_world)) = ∅
  ∧ ringInterval (stopRingCycle (run evs init_world)) = None
  ∧ ringLayer (stopRingCycle (run evs init_world))
    = ringLayer (run evs init_world).
Proof.
  destruct (reachable_inv evs) as [I _].
  set (w := run evs init_world) in *.
  split; [|split; [|split; [|split; [|split]]]].
  - rewrite (intervalTimers_inv w I).
    destruct (ringInterval w) as [h|]; [|rewrite map_size_empty; lia].
    destruct (timers w !! h); [by rewrite map_size_singleton|].
    rewrite map_size_empty. lia.
  - rewrite (intervalTimers_inv _ (startRingCycle_TimerInv w I)).
    destruct (startRingCycle_fields w) as (-> & _ & -> & _). done.
  - by destruct (startRingCycle_fields w) as (-> & _).
  - rewrite (intervalTimers_inv _ (stopRingCycle_TimerInv w I)). done.
  - done.
  - unfold stopRingCycle. by destruct (truthy _).
Qed.

(** ** Starting the simulation *)

(** The part of C10 the code keeps.  Each run of the simulation is started
    by the activation that leads from state 7 to state 8, and the loop it
    starts holds the counter 0 whatever earlier loops had reached: with stations in the store it
    issues one [flyTo], to the station at place 0 of the order, which no
    station lies north of, and parks with [idx = 0]; with an empty store it
    parks on its poll with [idx = 0]. *)
Lemma new_run_starts_at_index_0 (evs : list Event) :
  coverageState (run evs init_world) = 7 →
  (stations (run evs init_world) = [] →
     listeners (step Click (run evs init_world))
       = listeners (run evs init_world)
     ∧ flyLog (step Click (run evs init_world)) = flyLog (run evs init_world)
     ∧ timers (step Click (run evs init_world))
         !! S (nextTimer (run evs init_world))
       = Some (Timeout 1000 (AwaitPoll 0)))
  ∧ (stations (run evs init_world) ≠ [] →
     ∃ a s,
       stationOrder (run evs init_world) !! 0%nat = Some a
       ∧ stations (run evs init_world) !! a = Some s
       ∧ northernmost (stations (run evs init_world)) s
       ∧ listeners (step Click (run evs init_world))
         = listeners (run evs init_world) ++ [AwaitFlyBase1 0 (lat s, lon s)]
       ∧ flyLog (step Click (run evs init_world))
         = flyLog (run evs init_world)
           ++ [mkFly (lat s, lon s) ZOOM_BASE FLY_DUR_BASE]).
Proof.
  intros H7. destruct (reachable_inv evs) as [I G].
  set (w := run evs init_world) in *.
  pose proof (gi_order w G) as HO.
  change (step Click w) with (click w). unfold click.
  rewrite H7. change (nextCoverageState 7) with 8. simpl negb. cbv iota.
  change (8 =? 0) with false. change ((1 <=? 8) && (8 <=? 7)) with false.
  change (8 =? 8) with true. cbv iota.
  set (wb := set_button _ _).
  destruct (stopSimulation_fields wb)
    as (R & _ & St & Or & _ & _ & _ & Nt & Li & Fl & _).
  set (w0 := stopSimulation wb) in *. clearbody w0.
  simpl in St, Or, Nt, Li, Fl.
  unfold startSimulation. rewrite R.
  destruct (startRingCycle_fields (set_simRunning true w0))
    as (_ & Nt1 & _ & _ & R1 & St1 & Or1 & _ & _ & Li1 & Fl1 & _).
  set (w1 := startRingCycle _) in *. clearbody w1.
  simpl in Nt1, R1, St1, Or1, Li1, Fl1.
  unfold zoomStationsLoop.
  set (w2 := if bool_decide _ then _ else _).
  assert (stations w2 = stations w ∧ stationOrder w2 = stationOrder w
          ∧ simRunning w2 = true ∧ nextTimer w2 = S (nextTimer w)
          ∧ listeners w2 = listeners w ∧ flyLog w2 = flyLog w)
    as (St2 & Or2 & R2 & Nt2 & Li2 & Fl2).
  { unfold w2. case_bool_decide; simpl; rewrite ?St1, ?Or1, ?St, ?Or;
      repeat split; congruence. }
  clearbody w2. unfold loop_head. rewrite R2, St2, Or2. simpl negb. cbv iota.
  split.
  - intros Hs. rewrite Hs. simpl.
    rewrite Nt2, lookup_insert_eq. done.
  - intros Hs.
    destruct (OrderFacts.of_stations_head _ Hs) as (a & s & Ha & Hsa & Hn).
    rewrite <- HO in Ha.
    assert (length (stations w) ≠ 0%nat) as Hl1 by by destruct (stations w).
    assert (length (stationOrder w) ≠ 0%nat) as Hl2.
    { rewrite HO, OrderFacts.of_stations_length. done. }
    rewrite !bool_decide_eq_false_2 by done. simpl orb. cbv iota.
    rewrite Nat.Div0.mod_0_l, Ha, Hsa.
    exists a, s. repeat split; try done; try apply Hn.
    + simpl. by rewrite Li2.
    + simpl. by rewrite Fl2.
Qed.

Lemma new_run_starts_at_index_0_sample :
  coverageState loadedWorld = 7
  ∧ listeners (step Click loadedWorld) = [AwaitFlyBase1 0 (20%Q, 2%Q)]
  ∧ flyLog (step Click loadedWorld) = [mkFly (20%Q, 2%Q) ZOOM_BASE FLY_DUR_BASE].
Proof.
  split; [reflexivity|].
  destruct (proj2 (new_run_starts_at_index_0 [LoadComplete sampleRows]
                     eq_refl))
    as (a & s & Ha & Hs & _ & Hl & Hf); [done|].
  injection Ha as <-. injection Hs as <-.
  exact (conj Hl Hf).
Defined.

(** ** Progress carried across a stop and start *)

(** C10, the code at the failing input.  The loop of the first run has done
    with the first station and waits, its counter at 1, for the end of its
    first fly to the second station (5, 3).  One activation stops the
    simulation and eight more lead round to state 8, where a new loop is
    started with the counter 0 and a fly to the first station (20, 2); all
    this before the map reports the end of the fly.  The stop has not
    ended the old loop: at the next ['moveend'] it goes on where it was,
    with its counter at 1 and the closer fly to (5, 3), beside the new
    loop.  The tour of the run before is resumed across the stop and
    start. *)
Theorem C10_previous_progress_resumed_after_quick_restart :
  tourLoops secondStationWorld = [AwaitFlyBase1 1 (5%Q, 3%Q)]
  ∧ simRunning (step Click secondStationWorld) = false
  ∧ coverageState quickRestartWorld = 8
  ∧ simRunning quickRestartWorld = true
  ∧ tourLoops quickRestartWorld
    = [AwaitFlyBase1 1 (5%Q, 3%Q); AwaitFlyBase1 0 (20%Q, 2%Q)]
  ∧ tourLoops (step MoveEnd quickRestartWorld)
    = [AwaitFlyClose 1 (5%Q, 3%Q); AwaitFlyClose 0 (20%Q, 2%Q)]
  ∧ flyLog (step MoveEnd quickRestartWorld)
    = flyLog quickRestartWorld
      ++ [mkFly (5%Q, 3%Q) ZOOM_CLOSE FLY_DUR_CLOSE;
          mkFly (20%Q, 2%Q) ZOOM_CLOSE FLY_DUR_CLOSE].
Proof. vm_compute. repeat split; reflexivity. Qed.

(** ** Two tour loops at once *)

(** C1, the code at the failing input.  Stations are loaded, one activation
    starts the simulation and nine more lead through all states back to
    state 8 while the first loop still waits for the end of its first fly.
    The stop in between lowered the flag and cleared the ring timer, but the
    parked loop saw none of it: now the flag is up again, two loops are
    parked, and at the next ['moveend'] both go on and both call [flyTo].
    There is one ring-cycle timer throughout. *)
Theorem C1_two_tour_loops_after_quick_restart :
  simRunning stoppedWorld = false
  ∧ intervalTimers stoppedWorld = ∅
  ∧ tourLoops stoppedWorld = [AwaitFlyBase1 0 (20%Q, 2%Q)]
  ∧ coverageState restartedWorld = 8
  ∧ simRunning restartedWorld = true
  ∧ size (intervalTimers restartedWorld) = 1%nat
  ∧ tourLoops restartedWorld
    = [AwaitFlyBase1 0 (20%Q, 2%Q); AwaitFlyBase1 0 (20%Q, 2%Q)]
  ∧ tourLoops (step MoveEnd restartedWorld)
    = [AwaitFlyClose 0 (20%Q, 2%Q); AwaitFlyClose 0 (20%Q, 2%Q)]
  ∧ flyLog (step MoveEnd restartedWorld)
    = [mkFly (20%Q, 2%Q) ZOOM_BASE FLY_DUR_BASE;
       mkFly (20%Q, 2%Q) ZOOM_BASE FLY_DUR_BASE;
       mkFly (20%Q, 2%Q) ZOOM_CLOSE FLY_DUR_CLOSE;
       mkFly (20%Q, 2%Q) ZOOM_CLOSE FLY_DUR_CLOSE].
Proof. vm_compute. repeat split; reflexivity. Qed.

(** * Further properties of the script *)

(** ** The states the page can reach *)

(** X1.  The simulation flag, state 8, the handle in [ringInterval] and the
    ring-cycle timer go together in every state the page can reach: the flag
    is up exactly in state 8, the handle is set exactly then, and there is
    one interval timer in state 8 and none in any other state; the state
    stays within [0 .. 8]. *)
Theorem X1_running_exactly_in_state_8 (evs : list Event) :
  0 <= coverageState (run evs init_world) <= 8
  ∧ (simRunning (run evs init_world) = true
     ↔ coverageState (run evs init_world) = 8)
  ∧ (is_Some (ringInterval (run evs init_world))
     ↔ coverageState (run evs init_world) = 8)
  ∧ size (intervalTimers (run evs init_world))
    = (if bool_decide (coverageState (run evs init_world) = 8)
       then 1%nat else 0%nat).
Proof.
  destruct (reachable_inv evs) as [I G].
  set (w := run evs init_world) in *.
  pose proof (gi_running w G) as Hr. pose proof (gi_ring w G) as Hi.
  assert (simRunning w = true ↔ coverageState w = 8) as Hs.
  { rewrite Hr. apply bool_decide_eq_true. }
  split; [apply G|]. split; [done|]. split; [by rewrite Hi|].
  rewrite (intervalTimers_inv w I).
  case_bool_decide as H8.
  - apply Hs, Hi in H8 as [h Hh]. rewrite Hh.
    destruct (ti_ring w I h Hh) as (_ & i & -> & _).
    by rewrite map_size_singleton.
  - destruct (ringInterval w) as [h|] eqn:Hh; [|by rewrite map_size_empty].
    destruct H8. apply Hs, Hi. by exists h.
Qed.

(** ** The tour loop never reads outside its arrays *)

Lemma order_lookup ss n :
  ss ≠ [] →
  ∃ a s, Order.of_stations ss !! (n mod length (Order.of_stations ss))%nat
         = Some a ∧ ss !! a = Some s.
Proof.
  intros Hne.
  assert (length (Order.of_stations ss) ≠ 0%nat) as Hl.
  { rewrite OrderFacts.of_stations_length. by destruct ss. }
  destruct (lookup_lt_is_Some_2 (Order.of_stations ss)
              (n mod length (Order.of_stations ss))%nat) as [a Ha].
  { by apply Nat.mod_upper_bound. }
  destruct (OrderFacts.of_stations_lookup _ _ _ Ha) as (s & Hs & _).
  by exists a, s.
Qed.

Lemma loop_head_no_throw idx w :
  stationOrder w = Order.of_stations (stations w) →
  uncaught (loop_head idx w) = uncaught w.
Proof.
  intros HO. unfold loop_head.
  destruct (negb (simRunning w)); [done|].
  case_bool_decide as Hs; [done|]. case_bool_decide as Ho; [done|].
  simpl orb. cbv iota.
  assert (stations w ≠ []) as Hne by (intros E; by rewrite E in Hs).
  destruct (order_lookup (stations w) idx Hne) as (a & s & Ha & Hsa).
  rewrite <- HO in Ha. by rewrite Ha, Hsa.
Qed.

Lemma resume_no_throw k w :
  stationOrder w = Order.of_stations (stations w) →
  uncaught (resume k w) = uncaught w.
Proof.
  intros HO. destruct k; simpl; try (by apply loop_head_no_throw);
    by destruct (negb (simRunning w)).
Qed.

Lemma resumes_no_throw ks w :
  stationOrder w = Order.of_stations (stations w) →
  uncaught (foldl (fun w k => resume k w) w ks) = uncaught w.
Proof.
  revert w. induction ks as [|k ks IH]; intros w HO; simpl; [done|].
  rewrite IH.
  - by apply resume_no_throw.
  - destruct (effect_globals _ _ (resume_effect k w)) as (-> & -> & _). done.
Qed.

Lemma zoomStationsLoop_no_throw w :
  stationOrder w = Order.of_stations (stations w) →
  uncaught (zoomStationsLoop w) = uncaught w.
Proof.
  intros HO. unfold zoomStationsLoop.
  case_bool_decide; by rewrite loop_head_no_throw.
Qed.

Lemma click_no_throw w : GlobalInv w → uncaught (click w) = uncaught w.
Proof.
  intros G. unfold click.
  set (s := nextCoverageState (coverageState w)).
  set (wb := set_button _ _).
  destruct (stopSimulation_fields wb)
    as (R & _ & St & Or & _ & _ & _ & _ & _ & _ & Un).
  set (w0 := stopSimulation wb) in *. clearbody w0. simpl in St, Or, Un.
  destruct (s =? 0); [done|].
  destruct (_ && _).
  { by destruct (drawSingleRing_globals (coverageStep s) w0)
      as (_ & _ & _ & _ & _ & _ & _ & _ & _ & _ & ->). }
  destruct (s =? 8); [|done].
  unfold startSimulation. rewrite R.
  destruct (startRingCycle_fields (set_simRunning true w0))
    as (_ & _ & _ & _ & _ & St1 & Or1 & _ & _ & _ & _ & Un1).
  rewrite zoomStationsLoop_no_throw; [by rewrite Un1|].
  rewrite St1, Or1. simpl. rewrite St, Or. apply G.
Qed.

Lemma step_no_throw e w :
  GlobalInv w → uncaught (step e w) = uncaught w.
Proof.
  intros G. pose proof (gi_order w G) as HO.
  destruct e as [|h| |data]; simpl.
  - by apply click_no_throw.
  - unfold fire. destruct (timers w !! h) as [[ms i|ms k]|]; [| |done].
    + unfold ringTick. simpl.
      by destruct (drawSingleRing_globals (coverageSteps !! i) w)
        as (_ & _ & _ & _ & _ & _ & _ & _ & _ & _ & ->).
    + by rewrite resume_no_throw.
  - unfold moveEnd. by rewrite resumes_no_throw.
  - unfold loadComplete.
    destruct (drawSingleRing_globals (coverageStep 7)
                (set_button (Some (mkButton 7 (coverageStep 7)))
                   (rebuildStationOrder (foldl loadRow w data))))
      as (_ & _ & _ & _ & _ & _ & _ & _ & _ & _ & ->). simpl.
    clear. revert w. induction data as [|site data IH]; intros w; [done|].
    simpl. rewrite IH. unfold loadRow. by destruct (r_lat site), (r_lon site).
Qed.

(** X2.  Whatever the user and the browser do, the tour loop never throws: the
    index it takes from [stationOrder] is inside the array, and the station
    index it finds there is inside [stations], so [s.lat] is never read off
    [undefined]. *)
Theorem X2_tour_loop_never_throws (evs : list Event) :
  uncaught (run evs init_world) = 0%nat.
Proof.
  assert (∀ w, TimerInv w → GlobalInv w →
               uncaught (run evs w) = uncaught w) as H.
  { induction evs as [|e evs IH]; intros w I G; simpl; [done|].
    rewrite IH; [by apply step_no_throw|by apply step_TimerInv
                |by apply step_GlobalInv]. }
  by rewrite H; [|apply init_TimerInv|apply init_GlobalInv].
Qed.

(** ** What is on the ring layer *)

Lemma coverageSteps_cycle i :
  (1 <= i <= 7)%nat → ∃ km, coverageSteps !! i = Some km ∧ km ∈ cycleRadii.
Proof.
  intros Hi. destruct i as [|i]; [lia|]. rewrite cycle_step.
  destruct (lookup_lt_is_Some_2 cycleRadii i) as [km Hkm]; [simpl; lia|].
  exists km. split; [done|]. by eapply list_elem_of_lookup_2.
Qed.

Lemma coverageStep_cycle s :
  1 <= s <= 7 → ∃ km, coverageStep s = Some km ∧ km ∈ cycleRadii.
Proof.
  intros Hs. unfold coverageStep.
  destruct (Z.ltb_spec s 0); [lia|]. apply coverageSteps_cycle. lia.
Qed.

Lemma frame_rings w w' : Frame w w' → ringsConsistent w → ringsConsistent w'.
Proof.
  intros F. unfold ringsConsistent.
  by rewrite (fr_layer _ _ F), (fr_stations _ _ F).
Qed.

Lemma drawn_rings km w :
  km ∈ cycleRadii → ringsConsistent (drawSingleRing (Some km) w).
Proof.
  intros Hkm. right. exists km. split; [done|].
  rewrite drawSingleRing_layer.
  by destruct (drawSingleRing_globals (Some km) w) as (-> & _).
Qed.

Lemma click_rings w : TimerInv w → GlobalInv w → ringsConsistent (click w).
Proof.
  intros I G. unfold click.
  pose proof (nextCoverageState_range _ (gi_state w G)) as Hs.
  set (s := nextCoverageState (coverageState w)) in *.
  set (wb := set_button _ _).
  assert (TimerInv (stopSimulation wb)) as I0.
  { unfold stopSimulation. apply stopRingCycle_TimerInv.
    by apply (TimerInv_ext w). }
  destruct (stopSimulation_fields wb) as (R & _).
  set (w0 := stopSimulation wb) in *. clearbody w0.
  destruct (Z.eqb_spec s 0) as [E0|N0]; [by left|].
  destruct (_ && _) eqn:E17.
  { apply andb_true_iff in E17 as [H1 H7].
    apply Z.leb_le in H1. apply Z.leb_le in H7.
    destruct (coverageStep_cycle s) as (km & -> & Hkm); [lia|].
    by apply drawn_rings. }
  destruct (Z.eqb_spec s 8) as [E8|N8].
  - unfold startSimulation. rewrite R. unfold zoomStationsLoop.
    set (w1 := startRingCycle _).
    assert (TimerInv w1) as I1.
    { apply startRingCycle_TimerInv. by apply (TimerInv_ext w0). }
    assert (ringLayer w1 = []) as L1.
    { unfold w1.
      by destruct (startRingCycle_fields (set_simRunning true w0))
        as (_ & _ & _ & -> & _). }
    clearbody w1.
    set (w2 := if bool_decide _ then _ else _).
    assert (TimerInv w2 ∧ ringLayer w2 = []) as [I2 L2].
    { unfold w2. case_bool_decide; [|done]. split; [|done].
      by apply (TimerInv_ext w1). }
    eapply frame_rings;
      [apply effect_frame; [exact I2|apply loop_head_effect]|].
    by left.
  - apply andb_false_iff in E17. rewrite !Z.leb_gt in E17. lia.
Qed.

Lemma quiet_step_rings e w :
  TimerInv w → isClick e = false → ringsConsistent w →
  ringsConsistent (step e w).
Proof.
  intros I He Hr. destruct e as [|h| |data]; simpl; [done| | |].
  - unfold fire. destruct (timers w !! h) as [[ms i|ms k]|] eqn:E; [| |done].
    + pose proof (ti_only w I _ _ _ E) as Hh.
      destruct (ti_ring w I h Hh) as (_ & i' & Hi' & Hrange).
      rewrite E in Hi'. injection Hi' as _ <-.
      destruct (coverageSteps_cycle i Hrange) as (km & Hkm & Hin).
      right. exists km. split; [done|].
      rewrite ringTick_layer, Hkm. unfold ringTick. simpl.
      by destruct (drawSingleRing_globals (coverageSteps !! i) w) as (-> & _).
    + pose proof (timeout_TimerInv _ _ _ _ I E) as I'.
      eapply frame_rings;
        [apply effect_frame; [exact I'|apply resume_effect]|done].
  - unfold moveEnd.
    eapply frame_rings;
      [apply resumes_frame; by apply (TimerInv_ext w)|done].
  - unfold loadComplete. unfold coverageStep. simpl.
    apply drawn_rings. unfold cycleRadii. set_solver.
Qed.

Lemma step_rings e w :
  TimerInv w → GlobalInv w → ringsConsistent w → ringsConsistent (step e w).
Proof.
  intros I G Hr. destruct (isClick e) eqn:He.
  - destruct e; try done. by apply click_rings.
  - by apply quiet_step_rings.
Qed.

Lemma quiet_run_rings evs w :
  TimerInv w → quiet evs → ringsConsistent w → ringsConsistent (run evs w).
Proof.
  intros I Hq. revert w I.
  induction Hq as [|e evs He Hq IH]; intros w I Hr; [done|].
  simpl. apply IH; [by apply step_TimerInv|by apply quiet_step_rings].
Qed.

Lemma reachable_rings evs : ringsConsistent (run evs init_world).
Proof.
  assert (∀ w, TimerInv w → GlobalInv w → ringsConsistent w →
               ringsConsistent (run evs w)) as H.
  { induction evs as [|e evs IH]; intros w I G Hr; simpl; [done|].
    apply IH; [by apply step_TimerInv|by apply step_GlobalInv
              |by apply step_rings]. }
  apply H; [apply init_TimerInv|apply init_GlobalInv|by left].
Qed.

(** What the script draws for a radius that is a number: the circle is
    centred on the station and its radius is the kilometres times 1000. *)
Lemma circle_spelled km s :
  circle (Some km) s = mkCircle (lat s, lon s) (Some (km * 1000)%Q).
Proof. reflexivity. Qed.

Lemma cycle_radius_nonzero km : km ∈ cycleRadii → ¬ (km * 1000 == 0)%Q.
Proof.
  intros Hin H. apply list_elem_of_lookup in Hin as [i Hi].
  destruct (cycleRadii_lookup i) as (km' & Hk & Hnz).
  { apply lookup_lt_Some in Hi. simpl in Hi. lia. }
  rewrite Hi in Hk. injection Hk as <-.
  apply Qmult_integral in H as [H|H]; [done|].
  unfold Qeq in H. simpl in H. discriminate.
Qed.

(** Every circle of a consistent layer, spelled out. *)
Lemma rings_radii w :
  ringsConsistent w →
  ∀ c, c ∈ ringLayer w →
       ∃ km s, km ∈ cycleRadii ∧ s ∈ stations w
               ∧ c_center c = (lat s, lon s)
               ∧ c_radius c = Some (km * 1000)%Q
               ∧ ¬ (km * 1000 == 0)%Q.
Proof.
  intros [Hr|(km & Hkm & Hr)] c Hc; rewrite Hr in Hc.
  - by apply elem_of_nil in Hc.
  - apply list_elem_of_In, in_map_iff in Hc as (s & <- & Hs).
    apply list_elem_of_In in Hs.
    exists km, s. repeat split; try done. by apply cycle_radius_nonzero.
Qed.

(** X3.  In every state the page can reach the ring layer is empty or holds
    exactly one circle per loaded station, in the order of the store, each
    centred on its station and all of the same radius [km * 1000] metres,
    [km] one of 5, 10, 15, 20, 25, 30 and 40: there is never a ring of
    radius 0, a ring of an undefined radius, or a leftover ring of another
    size. *)
Theorem X3_ring_layer_one_radius (evs : list Event) :
  (ringLayer (run evs init_world) = []
   ∨ ∃ km, km ∈ cycleRadii
           ∧ ringLayer (run evs init_world)
             = map (fun s => mkCircle (lat s, lon s) (Some (km * 1000)%Q))
                   (stations (run evs init_world)))
  ∧ (∀ c, c ∈ ringLayer (run evs init_world) →
          ∃ km s, km ∈ cycleRadii ∧ s ∈ stations (run evs init_world)
                  ∧ c_center c = (lat s, lon s)
                  ∧ c_radius c = Some (km * 1000)%Q
                  ∧ ¬ (km * 1000 == 0)%Q).
Proof.
  pose proof (reachable_rings evs) as Hr. split.
  - destruct Hr as [Hr|(km & Hkm & Hr)]; [by left|].
    right. exists km. split; [done|]. exact Hr.
  - by apply rings_radii.
Qed.

(** ** The radii of the ring cycle *)

(** C6.  Start the ring cycle in any state the page can reach and let any
    events follow that are not activations.  If the cycle's timer has fired
    [n] times among them, its next tick draws, around every station, a
    circle centred on the station whose radius is [km * 1000] metres for the
    [km] at place [n mod 7] of 5, 10, 15, 20, 25, 30, 40: the sequence is
    run through in order and 5 follows 40.  The radius of a circle drawn by
    a tick is never 0, and at no moment of the cycle does the layer hold a
    circle of radius 0 or of no radius. *)
Theorem C6_ring_cycle_radii (evs evs' : list Event) :
  quiet evs' →
  ∃ km : Q,
    cycleRadii !! (ticks (nextTimer (run evs init_world)) evs' mod 7)%nat
      = Some km
    ∧ ¬ (km == 0)%Q
    ∧ ringInterval (run evs' (startRingCycle (run evs init_world)))
      = Some (nextTimer (run evs init_world))
    ∧ ringLayer (step (TimerFire (nextTimer (run evs init_world)))
                   (run evs' (startRingCycle (run evs init_world))))
      = map (fun s => mkCircle (lat s, lon s) (Some (km * 1000)%Q))
            (stations (run evs' (startRingCycle (run evs init_world))))
    ∧ (∀ c, c ∈ ringLayer (step (TimerFire (nextTimer (run evs init_world)))
                             (run evs' (startRingCycle (run evs init_world)))) →
            c_radius c = Some (km * 1000)%Q ∧ ¬ (km * 1000 == 0)%Q)
    ∧ (∀ c, c ∈ ringLayer (run evs' (startRingCycle (run evs init_world))) →
            ∃ r, c_radius c = Some r ∧ ¬ (r == 0)%Q).
Proof.
  intros Hq.
  destruct (reachable_inv evs) as [I _].
  set (w := run evs init_world) in *. set (h := nextTimer w).
  pose proof (startRingCycle_TimerInv w I) as I0.
  destruct (startRingCycle_fields w) as (Hr & _ & Ht & Hl0 & _).
  fold h in Hr, Ht.
  pose proof (quiet_run_cycle evs' _ h _ _ I0 Hq Ht) as Hc.
  rewrite nextIdx_iter in Hc.
  set (n := ticks h evs') in *.
  destruct (cycleRadii_lookup (n mod 7))
    as (km & Hkm & Hnz); [apply Nat.mod_upper_bound; lia|].
  assert (¬ (km * 1000 == 0)%Q) as Hnz'.
  { apply cycle_radius_nonzero. by eapply list_elem_of_lookup_2. }
  assert (ringLayer (step (TimerFire h) (run evs' (startRingCycle w)))
          = map (fun s => mkCircle (lat s, lon s) (Some (km * 1000)%Q))
                (stations (run evs' (startRingCycle w)))) as Hlayer.
  { change (step (TimerFire h) ?x) with (fire h x). unfold fire.
    by rewrite Hc, ringTick_layer, cycle_step, Hkm. }
  exists km. split; [done|]. split; [done|]. split; [|split; [done|split]].
  - destruct (quiet_run_globals evs' (startRingCycle w) Hq) as (_ & _ & ->).
    done.
  - intros c Hc'. rewrite Hlayer in Hc'.
    apply list_elem_of_fmap in Hc' as (s & -> & _). done.
  - intros c Hc'.
    assert (ringsConsistent (run evs' (startRingCycle w))) as Hrc.
    { apply quiet_run_rings; [done|done|by left]. }
    destruct (rings_radii _ Hrc c Hc') as (km' & s & _ & _ & _ & Hr' & Hn').
    by exists (km' * 1000)%Q.
Qed.

Lemma C6_witness :
  quiet [TimerFire 1%nat; MoveEnd; TimerFire 1%nat]
  ∧ ringLayer
      (step (TimerFire 1%nat)
         (run [TimerFire 1%nat; MoveEnd; TimerFire 1%nat]
            (startRingCycle loadedWorld)))
    = map (fun s => mkCircle (lat s, lon s) (Some 15000%Q))
          (stations loadedWorld).
Proof.
  assert (quiet [TimerFire 1%nat; MoveEnd; TimerFire 1%nat]) as Hq
    by (repeat constructor).
  split; [exact Hq|].
  destruct (C6_ring_cycle_radii [LoadComplete sampleRows] _ Hq)
    as (km & Hkm & _ & _ & Hl & _).
  injection Hkm as <-. exact Hl.
Defined.

(** ** What one activation shows *)

Lemma click_button w :
  button (click w)
  = Some (mkButton (nextCoverageState (coverageState w))
            (if (1 <=? nextCoverageState (coverageState w))
                && (nextCoverageState (coverageState w) <=? 7)
             then coverageStep (nextCoverageState (coverageState w))
             else None)).
Proof.
  unfold click.
  set (s := nextCoverageState (coverageState w)).
  set (wb := set_button _ _).
  destruct (stopSimulation_fields wb) as (R & _ & _ & _ & _ & _ & Bu & _).
  set (w0 := stopSimulation wb) in *. clearbody w0. simpl in Bu.
  destruct (s =? 0); [done|].
  destruct (_ && _).
  { by destruct (drawSingleRing_globals (coverageStep s) w0)
      as (_ & _ & _ & _ & _ & -> & _). }
  destruct (s =? 8); [|done].
  unfold startSimulation. rewrite R. unfold zoomStationsLoop.
  set (w1 := if bool_decide _ then _ else _).
  destruct (effect_globals _ _ (loop_head_effect 0 w1))
    as (_ & _ & _ & _ & _ & _ & ->).
  destruct (startRingCycle_fields (set_simRunning true w0))
    as (_ & _ & _ & _ & _ & _ & _ & _ & Hb & _).
  unfold w1. case_bool_decide; [unfold rebuildStationOrder|]; simpl in *;
    by rewrite Hb.
Qed.

Lemma click_layer w :
  ringLayer (click w)
  = (if (1 <=? nextCoverageState (coverageState w))
        && (nextCoverageState (coverageState w) <=? 7)
     then map (circle (coverageStep (nextCoverageState (coverageState w))))
              (stations w)
     else if (nextCoverageState (coverageState w) =? 0)
             || (nextCoverageState (coverageState w) =? 8)
          then [] else ringLayer w).
Proof.
  unfold click.
  set (s := nextCoverageState (coverageState w)).
  set (wb := set_button _ _).
  destruct (stopSimulation_fields wb) as (R & _ & St & _ & La & _).
  set (w0 := stopSimulation wb) in *. clearbody w0. simpl in St, La.
  destruct (Z.eqb_spec s 0) as [->|N0]; [done|].
  destruct (_ && _).
  { by rewrite drawSingleRing_layer, St. }
  destruct (s =? 8); [|done]. simpl orb. cbv iota.
  unfold startSimulation. rewrite R. unfold zoomStationsLoop.
  set (w1 := if bool_decide _ then _ else _).
  destruct (effect_globals _ _ (loop_head_effect 0 w1))
    as (_ & _ & _ & _ & _ & -> & _).
  destruct (startRingCycle_fields (set_simRunning true w0))
    as (_ & _ & _ & Hl & _).
  unfold w1. case_bool_decide; [unfold rebuildStationOrder|]; simpl in *;
    by rewrite Hl.
Qed.

Lemma nextCoverageState_mod s :
  0 <= s <= 8 → nextCoverageState s = (s + 1) mod 9.
Proof.
  intros Hs. unfold nextCoverageState. destruct (Z.ltb_spec 8 (s + 1)).
  - by replace s with 8 by lia.
  - symmetry. apply Z.mod_small. lia.
Qed.

(** X4.  An activation in a state [s] within [0 .. 8] leads to the state
    [s' = (s + 1) mod 9] and shows it: the button gets class [s'] and, for
    [s'] in [1 .. 7], the radius [km = coverageSteps[s']] as its label (no
    label in states 0 and 8); the ring layer then holds, for [s'] in
    [1 .. 7], one circle per station, centred on it and of radius
    [km * 1000] metres, which is not 0, and no ring at all for [s' = 0]
    and [s' = 8]. *)
Theorem X4_activation_shows_new_state (w : World) :
  0 <= coverageState w <= 8 →
  ∃ s' : Z,
    s' = (coverageState w + 1) mod 9
    ∧ coverageState (step Click w) = s'
    ∧ ((s' = 0 ∨ s' = 8) →
         button (step Click w) = Some (mkButton s' None)
         ∧ ringLayer (step Click w) = [])
    ∧ (1 <= s' <= 7 →
         ∃ km, cycleRadii !! Z.to_nat (s' - 1) = Some km
               ∧ button (step Click w) = Some (mkButton s' (Some km))
               ∧ ¬ (km * 1000 == 0)%Q
               ∧ ringLayer (step Click w)
                 = map (fun s => mkCircle (lat s, lon s)
                                   (Some (km * 1000)%Q))
                       (stations w)).
Proof.
  intros Hs.
  pose proof (nextCoverageState_mod _ Hs) as Hc.
  exists ((coverageState w + 1) mod 9). split; [done|]. simpl step.
  split; [by rewrite click_state|].
  rewrite click_button, click_layer, Hc.
  set (s' := (coverageState w + 1) mod 9). clearbody s'. split.
  - intros [-> | ->]; done.
  - intros H17.
    assert ((1 <=? s') && (s' <=? 7) = true) as ->.
    { apply andb_true_iff. split; apply Z.leb_le; lia. }
    unfold coverageStep. destruct (Z.ltb_spec s' 0); [lia|].
    replace (Z.to_nat s') with (S (Z.to_nat (s' - 1))) by lia.
    rewrite cycle_step.
    destruct (lookup_lt_is_Some_2 cycleRadii (Z.to_nat (s' - 1)))
      as [km Hkm]; [simpl; lia|].
    exists km. rewrite Hkm. split; [done|]. split; [done|]. split; [|done].
    apply cycle_radius_nonzero. by eapply list_elem_of_lookup_2.
Qed.

Lemma X4_witness :
  0 <= coverageState stoppedWorld <= 8
  ∧ coverageState (step Click stoppedWorld) = 1
  ∧ button (step Click stoppedWorld) = Some (mkButton 1 (Some 5%Q))
  ∧ ringLayer (step Click stoppedWorld)
    = map (fun s => mkCircle (lat s, lon s) (Some 5000%Q))
          (stations stoppedWorld).
Proof.
  assert (0 <= coverageState stoppedWorld <= 8) as H by (vm_compute; split; discriminate).
  split; [exact H|].
  destruct (X4_activation_shows_new_state stoppedWorld H)
    as (s' & Hs' & Hc & _ & H17).
  vm_compute in Hs'. subst s'.
  destruct (H17 ltac:(lia)) as (km & Hkm & Hb & _ & Hl).
  injection Hkm as <-. exact (conj Hc (conj Hb Hl)).
Defined.

(** ** Loading the stations *)

Lemma validRows_elem s data :
  s ∈ validRows data
  ↔ ∃ site, site ∈ data ∧ r_lat site = Some (lat s) ∧ r_lon site = Some (lon s).
Proof.
  unfold validRows. rewrite list_elem_of_omap. split.
  - intros (site & Hin & Hs). exists site. split; [done|].
    destruct (r_lat site), (r_lon site); try done. by injection Hs as <-.
  - intros (site & Hin & Hla & Hlo). exists site. split; [done|].
    rewrite Hla, Hlo. by destruct s.
Qed.

Lemma validRows_length data : (length (validRows data) <= length data)%nat.
Proof.
  induction data as [|site data IH]; [done|].
  unfold validRows in *. csimpl.
  destruct (r_lat site), (r_lon site); csimpl; lia.
Qed.

(** X5.  The load keeps the stations that are there and appends, in the order of
    the file, one station for every row whose latitude and longitude are
    both numbers; every other row is skipped without a trace, so the store
    never grows by more than the number of rows.  The order is rebuilt over
    the whole store. *)
Theorem X5_load_keeps_numeric_rows (data : list Row) (w : World) :
  stations (loadComplete data w) = stations w ++ validRows data
  ∧ (∀ s, s ∈ validRows data
          ↔ ∃ site, site ∈ data ∧ r_lat site = Some (lat s)
                    ∧ r_lon site = Some (lon s))
  ∧ (length (stations (loadComplete data w))
     <= length (stations w) + length data)%nat
  ∧ stationOrder (loadComplete data w)
    = Order.of_stations (stations w ++ validRows data).
Proof.
  assert (stations (loadComplete data w) = stations w ++ validRows data
          ∧ stationOrder (loadComplete data w)
            = Order.of_stations (stations w ++ validRows data)) as [E1 E2].
  { unfold loadComplete.
    destruct (drawSingleRing_globals (coverageStep 7)
                (set_button (Some (mkButton 7 (coverageStep 7)))
                   (rebuildStationOrder (foldl loadRow w data))))
      as (-> & -> & _). simpl.
    by destruct (loadRows_stations data w) as (-> & _). }
  split; [done|]. split; [intros s; apply validRows_elem|]. split; [|done].
  rewrite E1, length_app. pose proof (validRows_length data). lia.
Qed.

(** ** Stopping twice, stopping what does not run *)

(** X6.  [stopSimulation] is idempotent, and in every state the page can reach
    outside state 8 it changes nothing at all: the stop that opens every
    activation is harmless when no simulation runs. *)
Theorem X6_stopSimulation_idempotent :
  (∀ w, stopSimulation (stopSimulation w) = stopSimulation w)
  ∧ (∀ evs, coverageState (run evs init_world) ≠ 8 →
            stopSimulation (run evs init_world) = run evs init_world).
Proof.
  split.
  - intros w. unfold stopSimulation, stopRingCycle. simpl.
    by destruct (truthy (ringInterval w)).
  - intros evs H8. destruct (reachable_inv evs) as [_ G].
    set (w := run evs init_world) in *.
    pose proof (gi_running w G) as Hr.
    rewrite bool_decide_eq_false_2 in Hr by done.
    assert (ringInterval w = None) as Hi.
    { destruct (ringInterval w) as [h|] eqn:E; [|done].
      assert (simRunning w = true) by (apply (gi_ring w G); by rewrite E).
      congruence. }
    unfold stopSimulation, stopRingCycle. simpl. rewrite Hi. simpl.
    destruct w. simpl in *. by subst.
Qed.

Lemma X6_witness :
  coverageState loadedWorld ≠ 8 ∧ stopSimulation loadedWorld = loadedWorld.
Proof.
  assert (coverageState loadedWorld ≠ 8) as H by (vm_compute; discriminate).
  split; [exact H|].
  exact (proj2 X6_stopSimulation_idempotent [LoadComplete sampleRows] H).
Defined.

(** ** Where tour loops come from *)

Lemma sleepers_of w : sleepers w = sleepersOf (timers w).
Proof. reflexivity. Qed.

Lemma sleepersOf_insert m h t :
  m !! h = None →
  sleepersOf (<[h := t]> m) ≡ₚ option_list (timerLoop t) ++ sleepersOf m.
Proof.
  intros Hh. unfold sleepersOf.
  rewrite (map_to_list_insert m h t Hh). csimpl.
  by destruct (timerLoop t).
Qed.

Lemma sleepersOf_delete m h t :
  m !! h = Some t →
  option_list (timerLoop t) ++ sleepersOf (delete h m) ≡ₚ sleepersOf m.
Proof.
  intros Hh. unfold sleepersOf.
  rewrite <- (map_to_list_delete m h t Hh). csimpl.
  by destruct (timerLoop t).
Qed.

(** Replacing an entry by one that holds the same loop, or none either. *)
Lemma sleepersOf_replace m h t t' :
  m !! h = Some t → timerLoop t' = timerLoop t →
  sleepersOf (<[h := t']> m) ≡ₚ sleepersOf m.
Proof.
  intros Hh Ht. rewrite <- (insert_delete_eq m h t').
  rewrite sleepersOf_insert by apply lookup_delete_eq.
  rewrite Ht. by apply sleepersOf_delete.
Qed.

Lemma effect_loops w w' :
  TimerInv w → Effect w w' →
  (length (tourLoops w') <= S (length (tourLoops w)))%nat.
Proof.
  intros I [| ms k | target zoom dur k |]; unfold tourLoops;
    rewrite ?sleepers_of; simpl; rewrite ?length_app; simpl; try lia.
  rewrite sleepersOf_insert; [simpl; lia|].
  destruct (timers w !! nextTimer w) eqn:E; [|done].
  pose proof (ti_fresh w I _ (mk_is_Some _ _ E)). lia.
Qed.

Lemma resumes_loops ks w :
  TimerInv w →
  (length (tourLoops (foldl (fun w k => resume k w) w ks))
   <= length ks + length (tourLoops w))%nat.
Proof.
  revert w. induction ks as [|k ks IH]; intros w I; simpl; [done|].
  pose proof (resume_effect k w) as E.
  pose proof (effect_loops _ _ I E).
  pose proof (IH _ (frame_TimerInv _ _ I (effect_frame _ _ I E))). lia.
Qed.

(** Clearing the ring cycle wakes and removes no loop. *)
Lemma cleared_sleepers w :
  TimerInv w →
  sleepersOf (timers (if truthy (ringInterval w)
                      then clearInterval (default 0%nat (ringInterval w)) w
                      else w))
  ≡ₚ sleepersOf (timers w).
Proof.
  intros I. destruct (ringInterval w) as [h|] eqn:Hr; [|done].
  destruct (ti_ring w I h Hr) as (_ & i & Hi & _).
  destruct (truthy (Some h)); [|done]. simpl.
  by rewrite <- (sleepersOf_delete _ _ _ Hi).
Qed.

Lemma click_loops w :
  TimerInv w → (length (tourLoops (click w)) <= S (length (tourLoops w)))%nat.
Proof.
  intros I. unfold click.
  set (s := nextCoverageState (coverageState w)).
  set (wb := set_button _ _).
  assert (TimerInv wb) as Ib by by apply (TimerInv_ext w).
  assert (TimerInv (stopSimulation wb)) as I0.
  { unfold stopSimulation. by apply stopRingCycle_TimerInv, (TimerInv_ext wb). }
  assert (tourLoops (stopSimulation wb) ≡ₚ tourLoops w) as Hp.
  { unfold tourLoops. rewrite !sleepers_of.
    destruct (stopSimulation_fields wb) as (_ & _ & _ & _ & _ & _ & _ & _ & -> & _).
    simpl. apply Permutation_app_head.
    pose proof (cleared_sleepers (set_simRunning false wb)
                  ltac:(by apply (TimerInv_ext wb))) as Hc.
    unfold stopSimulation, stopRingCycle. simpl in *.
    by destruct (truthy (ringInterval w)). }
  destruct (stopSimulation_fields wb) as (R & _).
  set (w0 := stopSimulation wb) in *. clearbody w0.
  apply Permutation_length in Hp.
  destruct (s =? 0);
    [change (tourLoops (clearCoverage w0)) with (tourLoops w0); lia|].
  destruct (_ && _).
  { assert (tourLoops (drawSingleRing (coverageStep s) w0) = tourLoops w0)
      as ->; [|lia].
    unfold tourLoops. rewrite !sleepers_of.
    by destruct (drawSingleRing_globals (coverageStep s) w0)
      as (_ & _ & _ & _ & _ & _ & -> & _ & -> & _). }
  destruct (s =? 8); [|lia].
  unfold startSimulation. rewrite R. unfold zoomStationsLoop.
  set (w1 := startRingCycle _).
  assert (TimerInv w1) as I1.
  { by apply startRingCycle_TimerInv, (TimerInv_ext w0). }
  assert (length (tourLoops w1) = length (tourLoops w0)) as H1.
  { unfold w1, tourLoops, startRingCycle. rewrite !sleepers_of. simpl.
    pose proof (cleared_sleepers w0 I0) as Hc.
    assert (timers (if truthy (ringInterval w0)
                    then clearInterval (default 0%nat (ringInterval w0)) w0
                    else w0) !! nextTimer w0 = None) as Hn.
    { destruct (timers _ !! nextTimer w0) as [t|] eqn:E; [|done].
      destruct (cleared_no_interval w0 _ t I0 E) as [_ E'].
      pose proof (ti_fresh w0 I0 _ (mk_is_Some _ _ E')). lia. }
    destruct (truthy (ringInterval w0)); simpl in *;
      rewrite !length_app; f_equal; apply Permutation_length;
      rewrite sleepersOf_insert by done; simpl; done. }
  clearbody w1.
  set (w2 := if bool_decide _ then _ else _).
  assert (TimerInv w2 ∧ tourLoops w2 = tourLoops w1) as [I2 H2].
  { unfold w2. case_bool_decide; [|done]. split; [|done].
    by apply (TimerInv_ext w1). }
  pose proof (effect_loops _ _ I2 (loop_head_effect 0 w2)).
  rewrite H2 in *. lia.
Qed.

(** X7.  Only an activation creates a tour loop, and one at most.  In a state the
    page can reach, no timer tick, no ['moveend'] and no load leaves more
    loops behind than it found (a loop that wakes parks again once, returns
    or stops), and an activation adds at most one. *)
Theorem X7_only_activation_creates_loop (evs : list Event) (e : Event) :
  (length (tourLoops (step e (run evs init_world)))
   <= length (tourLoops (run evs init_world))
      + (if isClick e then 1 else 0))%nat.
Proof.
  destruct (reachable_inv evs) as [I _].
  set (w := run evs init_world) in *. clearbody w.
  destruct e as [|h| |data]; simpl.
  - pose proof (click_loops w I). lia.
  - rewrite Nat.add_0_r. unfold fire.
    destruct (timers w !! h) as [[ms i|ms k]|] eqn:E; [| |done].
    + apply Nat.eq_le_incl. unfold tourLoops. rewrite !sleepers_of.
      rewrite ringTick_timers, !length_app. f_equal.
      * unfold ringTick. simpl.
        by destruct (drawSingleRing_globals (coverageSteps !! i) w)
          as (_ & _ & _ & _ & _ & _ & _ & _ & -> & _).
      * apply Permutation_length. by eapply sleepersOf_replace.
    + pose proof (timeout_TimerInv _ _ _ _ I E) as I'.
      pose proof (effect_loops _ _ I' (resume_effect k _)) as Hle.
      assert (S (length (tourLoops (set_timers (delete h (timers w)) w)))
              = length (tourLoops w)) as Hd.
      { unfold tourLoops. rewrite !sleepers_of. simpl.
        rewrite <- (sleepersOf_delete _ _ _ E). simpl.
        rewrite !length_app. simpl. lia. }
      lia.
  - rewrite Nat.add_0_r. unfold moveEnd.
    assert (TimerInv (set_listeners [] w)) as I' by by apply (TimerInv_ext w).
    pose proof (resumes_loops (listeners w) _ I') as Hle.
    unfold tourLoops in *. simpl in Hle.
    change (sleepers (set_listeners [] w)) with (sleepers w) in Hle.
    rewrite (length_app (listeners w) (sleepers w)). lia.
  - rewrite Nat.add_0_r. apply Nat.eq_le_incl.
    unfold tourLoops, loadComplete. rewrite !sleepers_of.
    destruct (drawSingleRing_globals (coverageStep 7)
                (set_button (Some (mkButton 7 (coverageStep 7)))
                   (rebuildStationOrder (foldl loadRow w data))))
      as (_ & _ & _ & _ & _ & _ & -> & _ & -> & _). simpl.
    by destruct (loadRows_frame data w) as (_ & -> & _ & _ & _ & _ & ->).
Qed.

(** ** Before any station is loaded *)

Lemma loop_head_empty idx w :
  stations w = [] →
  loop_head idx w = w ∨ loop_head idx w = sleep 1000 (AwaitPoll idx) w.
Proof.
  intros Hs. unfold loop_head. destruct (negb (simRunning w)); [by left|].
  rewrite Hs. by right.
Qed.

Lemma onlyPolls_sleep idx w : onlyPolls w → onlyPolls (sleep 1000 (AwaitPoll idx) w).
Proof.
  intros (Hf & Hl & Ht). split; [done|]. split; [done|]. simpl.
  intros h ms k Hh. destruct (decide (h = nextTimer w)) as [->|Hne].
  - rewrite lookup_insert_eq in Hh. injection Hh as _ <-. by eexists.
  - rewrite lookup_insert_ne in Hh by done. by eapply Ht.
Qed.

Lemma onlyPolls_loop_head idx w :
  stations w = [] → onlyPolls w → onlyPolls (loop_head idx w).
Proof.
  intros Hs Hp. destruct (loop_head_empty idx w Hs) as [-> | ->]; [done|].
  by apply onlyPolls_sleep.
Qed.

(** [onlyPolls] looks at the fly log, the listeners and the timeouts only. *)
Lemma onlyPolls_ext w w' :
  flyLog w' = flyLog w → listeners w' = listeners w →
  (∀ h ms k, timers w' !! h = Some (Timeout ms k) →
             timers w !! h = Some (Timeout ms k)) →
  onlyPolls w → onlyPolls w'.
Proof.
  intros E1 E2 Hsub (Hf & Hl & Ht). unfold onlyPolls. rewrite E1, E2.
  split; [done|]. split; [done|]. intros h ms k Hh. eapply Ht. by apply Hsub.
Qed.

Lemma click_stations w : stations (click w) = stations w.
Proof.
  unfold click.
  set (s := nextCoverageState (coverageState w)).
  set (wb := set_button _ _).
  destruct (stopSimulation_fields wb) as (R & _ & St & _).
  set (w0 := stopSimulation wb) in *. clearbody w0. simpl in St.
  destruct (s =? 0); [done|].
  destruct (_ && _).
  { by destruct (drawSingleRing_globals (coverageStep s) w0) as (-> & _). }
  destruct (s =? 8); [|done].
  unfold startSimulation. rewrite R. unfold zoomStationsLoop.
  set (w1 := if bool_decide _ then _ else _).
  destruct (effect_globals _ _ (loop_head_effect 0 w1)) as (-> & _).
  destruct (startRingCycle_fields (set_simRunning true w0))
    as (_ & _ & _ & _ & _ & Hst & _).
  unfold w1. case_bool_decide; [unfold rebuildStationOrder|]; simpl in *;
    by rewrite Hst.
Qed.

Lemma startRingCycle_timers w :
  timers (startRingCycle w)
  = <[nextTimer w := Interval RING_STEP_MS 1]>
      (timers (if truthy (ringInterval w)
               then clearInterval (default 0%nat (ringInterval w)) w
               else w)).
Proof. unfold startRingCycle. simpl. by destruct (truthy (ringInterval w)). Qed.

Lemma click_onlyPolls w :
  TimerInv w → stations w = [] → onlyPolls w → onlyPolls (click w).
Proof.
  intros I Hs Hp. unfold click.
  set (s := nextCoverageState (coverageState w)).
  set (wb := set_button _ _).
  assert (TimerInv wb) as Ib by by apply (TimerInv_ext w).
  assert (TimerInv (stopSimulation wb)) as I0.
  { unfold stopSimulation. by apply stopRingCycle_TimerInv, (TimerInv_ext wb). }
  assert (onlyPolls (stopSimulation wb)) as P0.
  { destruct (stopSimulation_fields wb)
      as (_ & _ & _ & _ & _ & _ & _ & _ & Li & Fl & _).
    apply (onlyPolls_ext w); [done|done| |done].
    intros h ms k Hh. unfold stopSimulation, stopRingCycle in Hh.
    simpl in Hh.
    by destruct (cleared_no_interval (set_simRunning false wb) h _
                   ltac:(by apply (TimerInv_ext wb)) Hh) as [_ ?]. }
  destruct (stopSimulation_fields wb) as (R & _ & St & _).
  set (w0 := stopSimulation wb) in *. clearbody w0. simpl in St.
  destruct (s =? 0); [by apply (onlyPolls_ext w0)|].
  destruct (_ && _).
  { destruct (drawSingleRing_globals (coverageStep s) w0)
      as (_ & _ & _ & _ & _ & _ & Ti & _ & Li & Fl & _).
    apply (onlyPolls_ext w0); try done. by rewrite Ti. }
  destruct (s =? 8); [|done].
  unfold startSimulation. rewrite R. unfold zoomStationsLoop.
  set (w1 := startRingCycle _).
  assert (onlyPolls w1 ∧ stations w1 = []) as [P1 S1].
  { destruct (startRingCycle_fields (set_simRunning true w0))
      as (_ & _ & _ & _ & _ & Hst & _ & _ & _ & Li & Fl & _).
    fold w1 in Hst, Li, Fl. split; [|by rewrite Hst; simpl; congruence].
    apply (onlyPolls_ext w0); [done|done| |done].
    intros h ms k Hh. unfold w1 in Hh. rewrite startRingCycle_timers in Hh.
    simpl in Hh. destruct (decide (h = nextTimer w0)) as [->|Hne].
    - by rewrite lookup_insert_eq in Hh.
    - rewrite lookup_insert_ne in Hh by done.
      by destruct (cleared_no_interval (set_simRunning true w0) h _
                     ltac:(by apply (TimerInv_ext w0)) Hh) as [_ ?]. }
  clearbody w1.
  set (w2 := if bool_decide _ then _ else _).
  assert (onlyPolls w2 ∧ stations w2 = []) as [P2 S2].
  { unfold w2. case_bool_decide; [|done]. split; [|done].
    by apply (onlyPolls_ext w1). }
  by apply onlyPolls_loop_head.
Qed.

Lemma step_stations_nil e w : stations (step e w) = [] → stations w = [].
Proof.
  destruct e as [|h| |data]; simpl.
  - by rewrite click_stations.
  - unfold fire. destruct (timers w !! h) as [[ms i|ms k]|]; [| |done].
    + unfold ringTick. simpl.
      by destruct (drawSingleRing_globals (coverageSteps !! i) w) as (-> & _).
    + by destruct (effect_globals _ _
                     (resume_effect k (set_timers (delete h (timers w)) w)))
        as (-> & _).
  - unfold moveEnd.
    by destruct (resumes_globals (listeners w) (set_listeners [] w))
      as (-> & _).
  - unfold loadComplete.
    destruct (drawSingleRing_globals (coverageStep 7)
                (set_button (Some (mkButton 7 (coverageStep 7)))
                   (rebuildStationOrder (foldl loadRow w data))))
      as (-> & _). simpl.
    destruct (loadRows_stations data w) as (-> & _).
    by intros [? _]%app_eq_nil.
Qed.

Lemma step_onlyPolls e w :
  TimerInv w → (stations w = [] → onlyPolls w) →
  stations (step e w) = [] → onlyPolls (step e w).
Proof.
  intros I Hp Hs'. pose proof (step_stations_nil e w Hs') as Hs.
  specialize (Hp Hs). destruct e as [|h| |data]; simpl.
  - by apply click_onlyPolls.
  - unfold fire. destruct (timers w !! h) as [[ms i|ms k]|] eqn:E; [| |done].
    + apply (onlyPolls_ext w); [| | |done].
      * unfold ringTick. simpl.
        by destruct (drawSingleRing_globals (coverageSteps !! i) w)
          as (_ & _ & _ & _ & _ & _ & _ & _ & _ & -> & _).
      * unfold ringTick. simpl.
        by destruct (drawSingleRing_globals (coverageSteps !! i) w)
          as (_ & _ & _ & _ & _ & _ & _ & _ & -> & _).
      * intros h' ms' k' Hh. rewrite ringTick_timers in Hh.
        destruct (decide (h' = h)) as [->|Hne].
        -- by rewrite lookup_insert_eq in Hh.
        -- by rewrite lookup_insert_ne in Hh.
    + destruct Hp as (Hf & Hl & Ht).
      destruct (Ht _ _ _ E) as [idx ->]. simpl.
      apply onlyPolls_loop_head; [done|].
      split; [done|]. split; [done|]. simpl.
      intros h' ms' k' [_ Hh]%lookup_delete_Some. by eapply Ht.
  - unfold moveEnd. destruct Hp as (Hf & Hl & Ht). rewrite Hl. simpl.
    by split.
  - unfold loadComplete.
    destruct (drawSingleRing_globals (coverageStep 7)
                (set_button (Some (mkButton 7 (coverageStep 7)))
                   (rebuildStationOrder (foldl loadRow w data))))
      as (_ & _ & _ & _ & _ & _ & Ti & _ & Li & Fl & _).
    destruct (loadRows_frame data w) as (_ & Ti' & _ & _ & _ & Fl' & Li').
    apply (onlyPolls_ext w); simpl in *; [congruence|congruence| |done].
    intros h ms k. by rewrite Ti, Ti'.
Qed.

Lemma empty_store_onlyPolls (evs : list Event) :
  stations (run evs init_world) = [] → onlyPolls (run evs init_world).
Proof.
  assert (∀ w, TimerInv w → (stations w = [] → onlyPolls w) →
               stations (run evs w) = [] → onlyPolls (run evs w)) as H.
  { induction evs as [|e evs IH]; intros w I Hp Hs; simpl in *; [by apply Hp|].
    apply IH; [by apply step_TimerInv| |done].
    by apply step_onlyPolls. }
  apply H; [apply init_TimerInv|].
  intros _. split; [done|]. split; [done|].
  intros h ms k Hh. simpl in Hh. by rewrite lookup_empty in Hh.
Qed.


(** X8.  As long as no station has been loaded the camera is left alone: in
    every state the page can reach with an empty station store,
    [map.flyTo] has never been called, no loop waits for a ['moveend'], and
    every tour loop there is sleeps on its 1000 ms poll, also when the
    simulation was started (and stopped and started again) before the
    stations arrived. *)
Theorem X8_no_fly_before_stations (evs : list Event) :
  stations (run evs init_world) = [] → onlyPolls (run evs init_world).
Proof. apply empty_store_onlyPolls. Qed.

Lemma X8_witness :
  stations (run (repeat Click 12) init_world) = []
  ∧ flyLog (run (repeat Click 12) init_world) = []
  ∧ listeners (run (repeat Click 12) init_world) = [].
Proof.
  split; [reflexivity|].
  destruct (X8_no_fly_before_stations (repeat Click 12) eq_refl)
    as (Hf & Hl & _).
  exact (conj Hf Hl).
Defined.

(** ** One station of the tour *)

Lemma loop_head_flies idx w :
  simRunning w = true → stations w ≠ [] →
  stationOrder w = Order.of_stations (stations w) →
  ∃ s, tourStation w idx = Some s
       ∧ loop_head idx w
         = flyToAsync (lat s, lon s) ZOOM_BASE FLY_DUR_BASE
             (AwaitFlyBase1 idx (lat s, lon s)) w.
Proof.
  intros Hr Hne HO.
  destruct (order_lookup (stations w) idx Hne) as (a & s & Ha & Hs).
  rewrite <- HO in Ha.
  exists s. unfold tourStation, loop_head. rewrite Ha, Hr. simpl.
  rewrite Hs. split; [done|].
  rewrite !bool_decide_eq_false_2; [done| |].
  - intros E. apply lookup_lt_Some in Ha. lia.
  - by destruct (stations w).
Qed.

Lemma moveEnd_one k w :
  listeners w = [k] → moveEnd w = resume k (set_listeners [] w).
Proof. intros E. unfold moveEnd. by rewrite E. Qed.

Lemma fire_timeout h ms k w :
  timers w !! h = Some (Timeout ms k) →
  fire h w = resume k (set_timers (delete h (timers w)) w).
Proof. intros E. unfold fire. by rewrite E. Qed.

(** X9.  One whole visit.  In a state the page can reach, let the simulation run
    with one loop waiting for the end of its first fly to a station; no
    activation follows.  The next events of that loop (the fly ends, the
    closer fly ends, the pause at close zoom runs out, the fly back ends,
    the pause between stations runs out) make it call [flyTo] three more
    times and no more: to the same place at [ZOOM_CLOSE], to the same place
    at [ZOOM_BASE], and then to the station that comes next in
    [stationOrder] (the first one again after the last), where it waits
    with its counter raised by one. *)
Theorem X9_one_station_visit (evs : list Event) (idx : nat) (t : LatLng) :
  simRunning (run evs init_world) = true →
  listeners (run evs init_world) = [AwaitFlyBase1 idx t] →
  ∃ s',
    tourStation (run evs init_world) (S idx) = Some s'
    ∧ flyLog (run [MoveEnd; MoveEnd; TimerFire (nextTimer (run evs init_world));
                   MoveEnd; TimerFire (S (nextTimer (run evs init_world)))]
                (run evs init_world))
      = flyLog (run evs init_world)
        ++ [mkFly t ZOOM_CLOSE FLY_DUR_CLOSE; mkFly t ZOOM_BASE FLY_DUR_BASE;
            mkFly (lat s', lon s') ZOOM_BASE FLY_DUR_BASE]
    ∧ listeners (run [MoveEnd; MoveEnd; TimerFire (nextTimer (run evs init_world));
                   MoveEnd; TimerFire (S (nextTimer (run evs init_world)))]
                (run evs init_world))
      = [AwaitFlyBase1 (S idx) (lat s', lon s')].
Proof.
  intros Hr Hl. destruct (reachable_inv evs) as [I G].
  assert (stations (run evs init_world) ≠ []) as Hne.
  { intros E. destruct (empty_store_onlyPolls evs E) as (_ & Hl' & _).
    congruence. }
  pose proof (gi_order _ G) as HO.
  set (w := run evs init_world) in *. clearbody w. clear I G.
  set (nt := nextTimer w).
  unfold run. simpl foldl.
  (* the first fly has ended *)
  set (w1 := moveEnd w).
  assert (w1 = flyToAsync t ZOOM_CLOSE FLY_DUR_CLOSE (AwaitFlyClose idx t)
                 (set_listeners [] w)) as E1.
  { unfold w1. rewrite (moveEnd_one _ _ Hl). simpl. by rewrite Hr. }
  clearbody w1.
  set (w2 := moveEnd w1).
  assert (w2 = sleep PAUSE_CLOSE_MS (AwaitPauseClose idx t)
                 (set_listeners [] w1)) as E2.
  { unfold w2. rewrite (moveEnd_one (AwaitFlyClose idx t)) by by rewrite E1.
    simpl. by rewrite E1; simpl; rewrite Hr. }
  clearbody w2.
  set (w3 := fire nt w2).
  assert (w3 = flyToAsync t ZOOM_BASE FLY_DUR_BASE (AwaitFlyBase2 idx t)
                 (set_timers (delete nt (timers w2)) w2)) as E3.
  { unfold w3.
    rewrite (fire_timeout nt PAUSE_CLOSE_MS (AwaitPauseClose idx t)).
    - simpl. by rewrite E2, E1; simpl; rewrite Hr.
    - rewrite E2, E1. simpl. apply lookup_insert_eq. }
  clearbody w3.
  set (w4 := moveEnd w3).
  assert (w4 = sleep PAUSE_BETWEEN_MS (AwaitPauseBetween idx t)
                 (set_listeners [] w3)) as E4.
  { unfold w4.
    rewrite (moveEnd_one (AwaitFlyBase2 idx t)) by by rewrite E3, E2, E1.
    simpl. by rewrite E3, E2, E1; simpl; rewrite Hr. }
  clearbody w4.
  assert (fire (S nt) w4
          = loop_head (S idx) (set_timers (delete (S nt) (timers w4)) w4)) as E5.
  { rewrite (fire_timeout (S nt) PAUSE_BETWEEN_MS (AwaitPauseBetween idx t));
      [done|].
    rewrite E4, E3, E2, E1. simpl. apply lookup_insert_eq. }
  rewrite E5.
  destruct (loop_head_flies (S idx)
              (set_timers (delete (S nt) (timers w4)) w4))
    as (s' & Hs' & ->).
  { by rewrite E4, E3, E2, E1. }
  { by rewrite E4, E3, E2, E1. }
  { by rewrite E4, E3, E2, E1. }
  exists s'. split; [|split].
  - rewrite <- Hs'. unfold tourStation. by rewrite E4, E3, E2, E1.
  - rewrite E4, E3, E2, E1. simpl. by rewrite <- !app_assoc.
  - rewrite E4, E3, E2, E1. done.
Qed.

Lemma X9_witness :
  simRunning (run [LoadComplete sampleRows; Click] init_world) = true
  ∧ listeners (run [LoadComplete sampleRows; Click] init_world)
    = [AwaitFlyBase1 0 (20%Q, 2%Q)]
  ∧ ∃ s',
      tourStation (run [LoadComplete sampleRows; Click] init_world) 1
      = Some s'
      ∧ flyLog (run [MoveEnd; MoveEnd;
                     TimerFire (nextTimer (run [LoadComplete sampleRows; Click]
                                             init_world));
                     MoveEnd;
                     TimerFire (S (nextTimer (run [LoadComplete sampleRows;
                                                   Click] init_world)))]
                  (run [LoadComplete sampleRows; Click] init_world))
        = flyLog (run [LoadComplete sampleRows; Click] init_world)
          ++ [mkFly (20%Q, 2%Q) ZOOM_CLOSE FLY_DUR_CLOSE;
              mkFly (20%Q, 2%Q) ZOOM_BASE FLY_DUR_BASE;
              mkFly (lat s', lon s') ZOOM_BASE FLY_DUR_BASE].
Proof.
  assert (simRunning (run [LoadComplete sampleRows; Click] init_world) = true)
    as H1 by (vm_compute; reflexivity).
  assert (listeners (run [LoadComplete sampleRows; Click] init_world)
          = [AwaitFlyBase1 0 (20%Q, 2%Q)]) as H2 by (vm_compute; reflexivity).
  split; [exact H1|]. split; [exact H2|].
  destruct (X9_one_station_visit [LoadComplete sampleRows; Click] 0
              (20%Q, 2%Q) H1 H2) as (s' & Hs' & Hf & _).
  exists s'. exact (conj Hs' Hf).
Defined.

(** ** One round of the tour *)

(** X10.  In every state the page can reach, the stations the loop heads for in
    the iterations [0 .. n - 1] ([n] the number of stations) are all the
    stations, each once, from north to south, and iteration [idx + n]
    heads for the station of iteration [idx]: the tour goes round and
    round in the same order. *)
Theorem X10_tour_round (evs : list Event) :
  (∀ i j s s',
     (i < j < length (stations (run evs init_world)))%nat →
     tourStation (run evs init_world) i = Some s →
     tourStation (run evs init_world) j = Some s' →
     (lat s' <= lat s)%Q)
  ∧ (∀ a s, stations (run evs init_world) !! a = Some s →
       ∃ i, (i < length (stations (run evs init_world)))%nat
            ∧ stationOrder (run evs init_world) !! i = Some a
            ∧ tourStation (run evs init_world) i = Some s
            ∧ ∀ j, (j < length (stations (run evs init_world)))%nat →
                   stationOrder (run evs init_world) !! j = Some a → j = i)
  ∧ (∀ idx, tourStation (run evs init_world)
              (idx + length (stations (run evs init_world)))
            = tourStation (run evs init_world) idx).
Proof.
  destruct (reachable_inv evs) as [_ G].
  set (w := run evs init_world) in *. clearbody w.
  pose proof (gi_order w G) as HO.
  assert (length (stationOrder w) = length (stations w)) as Hlen.
  { rewrite HO. apply OrderFacts.of_stations_length. }
  assert (NoDup (stationOrder w)) as Hnd.
  { rewrite HO, OrderFacts.of_stations_perm. apply NoDup_seq. }
  unfold tourStation. rewrite Hlen. split; [|split].
  - intros i j s s' [Hij Hj].
    rewrite !Nat.mod_small by lia. rewrite HO.
    destruct (Order.of_stations (stations w) !! i) as [a|] eqn:Ea; [|done].
    destruct (Order.of_stations (stations w) !! j) as [b|] eqn:Eb; [|done].
    simpl. intros Hs Hs'.
    by eapply (OrderFacts.of_stations_desc (stations w) i j).
  - intros a s Hs.
    assert (a ∈ stationOrder w) as Hin.
    { rewrite HO, OrderFacts.of_stations_perm. apply elem_of_seq.
      apply lookup_lt_Some in Hs. lia. }
    apply list_elem_of_lookup in Hin as [i Hi].
    pose proof (lookup_lt_Some _ _ _ Hi) as Hlt. rewrite Hlen in Hlt.
    exists i. split; [done|]. split; [done|]. split.
    + rewrite Nat.mod_small by done. by rewrite Hi.
    + intros j _ Hj. by eapply NoDup_lookup.
  - intros idx.
    replace (idx + length (stations w))%nat
      with (idx + 1 * length (stations w))%nat by lia.
    by rewrite Nat.Div0.mod_add.
Qed.

(** ** Where the camera is sent *)

Lemma isStation_mono ss ss' t : ss ⊆ ss' → isStation ss t → isStation ss' t.
Proof. intros Hsub (s & Hs & ->). exists s. split; [by apply Hsub|done]. Qed.

Lemma targetsOK_mono ss ss' w : ss ⊆ ss' → targetsOK ss w → targetsOK ss' w.
Proof.
  intros Hsub (Hf & Hl & Ht). split; [|split].
  - eapply Forall_impl; [exact Hf|]. intros f [H1 H2].
    split; [by eapply isStation_mono|done].
  - intros k t Hk Hkt. eapply isStation_mono; [done|]. by eapply Hl.
  - intros h ms k t Hh Hkt. eapply isStation_mono; [done|]. by eapply Ht.
Qed.

(** [targetsOK] looks at the fly log, the listeners and the timeouts only. *)
Lemma targetsOK_ext ss w w' :
  flyLog w' = flyLog w → listeners w' = listeners w →
  (∀ h ms k, timers w' !! h = Some (Timeout ms k) →
             timers w !! h = Some (Timeout ms k)) →
  targetsOK ss w → targetsOK ss w'.
Proof.
  intros E1 E2 Hsub (Hf & Hl & Ht). unfold targetsOK. rewrite E1, E2.
  split; [done|]. split; [done|].
  intros h ms k t Hh. eapply Ht. by apply Hsub.
Qed.

Lemma targetsOK_sleep ss ms k w :
  (∀ t, loop_target k = Some t → isStation ss t) →
  targetsOK ss w → targetsOK ss (sleep ms k w).
Proof.
  intros Hk (Hf & Hl & Ht). split; [done|]. split; [done|]. simpl.
  intros h ms' k' t Hh. destruct (decide (h = nextTimer w)) as [->|Hne].
  - rewrite lookup_insert_eq in Hh. injection Hh as _ <-. apply Hk.
  - rewrite lookup_insert_ne in Hh by done. by eapply Ht.
Qed.

Lemma targetsOK_fly ss target zoom dur k w :
  flyOK ss (mkFly target zoom dur) →
  (∀ t, loop_target k = Some t → isStation ss t) →
  targetsOK ss w → targetsOK ss (flyToAsync target zoom dur k w).
Proof.
  intros Hfly Hk (Hf & Hl & Ht). split; [|split; [|done]]; simpl.
  - apply Forall_app. split; [done|]. by apply Forall_singleton.
  - intros k' t [Hin|Hin%list_elem_of_singleton]%elem_of_app.
    + by apply Hl.
    + subst k'. apply Hk.
Qed.

Lemma loop_head_targets idx w :
  targetsOK (stations w) w → targetsOK (stations w) (loop_head idx w).
Proof.
  intros H. unfold loop_head.
  destruct (negb (simRunning w)); [done|].
  destruct (_ || _); [by apply targetsOK_sleep|].
  destruct (stationOrder w !! _) as [a|]; [|done].
  destruct (stations w !! a) as [s|] eqn:Es; [|done].
  assert (isStation (stations w) (lat s, lon s)) as Hs.
  { exists s. split; [by eapply list_elem_of_lookup_2|done]. }
  apply targetsOK_fly; [|by intros t [= <-]|done].
  split; [done|by left].
Qed.

Lemma resume_targets k w :
  (∀ t, loop_target k = Some t → isStation (stations w) t) →
  targetsOK (stations w) w → targetsOK (stations w) (resume k w).
Proof.
  intros Hk H. destruct k as [idx|idx t|idx t|idx t|idx t|idx t]; simpl;
    try (by apply loop_head_targets);
    (destruct (negb (simRunning w)); [done|]);
    specialize (Hk t eq_refl).
  - apply targetsOK_fly; [|by intros ? [= <-]|done]. split; [done|by right].
  - apply targetsOK_sleep; [by intros ? [= <-]|done].
  - apply targetsOK_fly; [|by intros ? [= <-]|done]. split; [done|by left].
  - apply targetsOK_sleep; [by intros ? [= <-]|done].
Qed.

Lemma resumes_targets ks w :
  (∀ k t, k ∈ ks → loop_target k = Some t → isStation (stations w) t) →
  targetsOK (stations w) w →
  targetsOK (stations w) (foldl (fun w k => resume k w) w ks).
Proof.
  revert w. induction ks as [|k ks IH]; intros w Hks H; simpl; [done|].
  destruct (effect_globals _ _ (resume_effect k w)) as (Hst & _).
  rewrite <- Hst. apply IH.
  - rewrite Hst. intros k' t Hk'. apply Hks. by right.
  - rewrite Hst. apply resume_targets; [|done].
    intros t. apply Hks. by left.
Qed.

Lemma click_targets w :
  TimerInv w → targetsOK (stations w) w →
  targetsOK (stations (click w)) (click w).
Proof.
  intros I H. rewrite click_stations. unfold click.
  set (s := nextCoverageState (coverageState w)).
  set (wb := set_button _ _).
  assert (TimerInv wb) as Ib by by apply (TimerInv_ext w).
  assert (targetsOK (stations w) (stopSimulation wb)) as H0.
  { destruct (stopSimulation_fields wb)
      as (_ & _ & _ & _ & _ & _ & _ & _ & Li & Fl & _).
    apply (targetsOK_ext _ w); [done|done| |done].
    intros h ms k Hh. unfold stopSimulation, stopRingCycle in Hh.
    simpl in Hh.
    by destruct (cleared_no_interval (set_simRunning false wb) h _
                   ltac:(by apply (TimerInv_ext wb)) Hh) as [_ ?]. }
  assert (TimerInv (stopSimulation wb)) as I0.
  { unfold stopSimulation. by apply stopRingCycle_TimerInv, (TimerInv_ext wb). }
  destruct (stopSimulation_fields wb) as (R & _ & St & _).
  set (w0 := stopSimulation wb) in *. clearbody w0. simpl in St.
  destruct (s =? 0); [by apply (targetsOK_ext _ w0)|].
  destruct (_ && _).
  { destruct (drawSingleRing_globals (coverageStep s) w0)
      as (_ & _ & _ & _ & _ & _ & Ti & _ & Li & Fl & _).
    apply (targetsOK_ext _ w0); try done. by rewrite Ti. }
  destruct (s =? 8); [|done].
  unfold startSimulation. rewrite R. unfold zoomStationsLoop.
  set (w1 := startRingCycle _).
  assert (targetsOK (stations w) w1 ∧ stations w1 = stations w) as [H1 S1].
  { destruct (startRingCycle_fields (set_simRunning true w0))
      as (_ & _ & _ & _ & _ & Hst & _ & _ & _ & Li & Fl & _).
    fold w1 in Hst, Li, Fl. split; [|by rewrite Hst].
    apply (targetsOK_ext _ w0); [done|done| |done].
    intros h ms k Hh. unfold w1 in Hh. rewrite startRingCycle_timers in Hh.
    simpl in Hh. destruct (decide (h = nextTimer w0)) as [->|Hne].
    - by rewrite lookup_insert_eq in Hh.
    - rewrite lookup_insert_ne in Hh by done.
      by destruct (cleared_no_interval (set_simRunning true w0) h _
                     ltac:(by apply (TimerInv_ext w0)) Hh) as [_ ?]. }
  clearbody w1.
  set (w2 := if bool_decide _ then _ else _).
  assert (targetsOK (stations w) w2 ∧ stations w2 = stations w) as [H2 S2].
  { unfold w2. case_bool_decide; [|done]. split; [|done].
    by apply (targetsOK_ext _ w1). }
  rewrite <- S2 in *. by apply loop_head_targets.
Qed.

Lemma step_targets e w :
  TimerInv w → targetsOK (stations w) w →
  targetsOK (stations (step e w)) (step e w).
Proof.
  intros I H. destruct e as [|h| |data]; simpl.
  - by apply click_targets.
  - unfold fire. destruct (timers w !! h) as [[ms i|ms k]|] eqn:E; [| |done].
    + assert (stations (ringTick h ms i w) = stations w) as ->.
      { unfold ringTick. simpl.
        by destruct (drawSingleRing_globals (coverageSteps !! i) w) as (-> & _). }
      apply (targetsOK_ext _ w); [| | |done].
      * unfold ringTick. simpl.
        by destruct (drawSingleRing_globals (coverageSteps !! i) w)
          as (_ & _ & _ & _ & _ & _ & _ & _ & _ & -> & _).
      * unfold ringTick. simpl.
        by destruct (drawSingleRing_globals (coverageSteps !! i) w)
          as (_ & _ & _ & _ & _ & _ & _ & _ & -> & _).
      * intros h' ms' k' Hh. rewrite ringTick_timers in Hh.
        destruct (decide (h' = h)) as [->|Hne].
        -- by rewrite lookup_insert_eq in Hh.
        -- by rewrite lookup_insert_ne in Hh.
    + set (w' := set_timers (delete h (timers w)) w).
      destruct (effect_globals _ _ (resume_effect k w')) as (-> & _).
      change (stations w') with (stations w).
      destruct H as (Hf & Hl & Ht).
      apply (resume_targets k w').
      * intros t Hkt. by eapply Ht.
      * split; [done|]. split; [done|]. simpl.
        intros h' ms' k' t [_ Hh]%lookup_delete_Some. by eapply Ht.
  - unfold moveEnd.
    destruct (resumes_globals (listeners w) (set_listeners [] w)) as (-> & _).
    destruct H as (Hf & Hl & Ht).
    apply (resumes_targets (listeners w) (set_listeners [] w)); [done|].
    split; [done|]. split; [|done]. simpl. by intros k t ?%elem_of_nil.
  - assert (stations (loadComplete data w) = stations w ++ validRows data)
      as ->.
    { unfold loadComplete.
      destruct (drawSingleRing_globals (coverageStep 7)
                  (set_button (Some (mkButton 7 (coverageStep 7)))
                     (rebuildStationOrder (foldl loadRow w data))))
        as (-> & _). simpl.
      by destruct (loadRows_stations data w) as (-> & _). }
    apply (targetsOK_mono (stations w)); [set_solver|].
    unfold loadComplete.
    destruct (drawSingleRing_globals (coverageStep 7)
                (set_button (Some (mkButton 7 (coverageStep 7)))
                   (rebuildStationOrder (foldl loadRow w data))))
      as (_ & _ & _ & _ & _ & _ & Ti & _ & Li & Fl & _).
    destruct (loadRows_frame data w) as (_ & Ti' & _ & _ & _ & Fl' & Li').
    apply (targetsOK_ext _ w); simpl in *; [congruence|congruence| |done].
    intros h ms k. by rewrite Ti, Ti'.
Qed.

Lemma reachable_targets evs :
  targetsOK (stations (run evs init_world)) (run evs init_world).
Proof.
  assert (∀ w, TimerInv w → targetsOK (stations w) w →
               targetsOK (stations (run evs w)) (run evs w)) as H.
  { induction evs as [|e evs IH]; intros w I Hw; simpl; [done|].
    apply IH; [by apply step_TimerInv|by apply step_targets]. }
  apply H; [apply init_TimerInv|].
  split; [constructor|]. split.
  - by intros k t ?%elem_of_nil.
  - intros h ms k t Hh. simpl in Hh. by rewrite lookup_empty in Hh.
Qed.

(** X11.  The camera is only ever sent to a station.  In every state the page can
    reach, each call of [map.flyTo] made so far went to the position of a
    station in the store, either at [ZOOM_BASE] over [FLY_DUR_BASE] seconds
    or at [ZOOM_CLOSE] over [FLY_DUR_CLOSE] seconds, and every parked loop
    that will fly again holds the position of such a station. *)
Theorem X11_flies_only_to_stations (evs : list Event) :
  (∀ f, f ∈ flyLog (run evs init_world) →
        (∃ s, s ∈ stations (run evs init_world)
              ∧ f_target f = (lat s, lon s))
        ∧ ((f_zoom f = ZOOM_BASE ∧ f_duration f = FLY_DUR_BASE)
           ∨ (f_zoom f = ZOOM_CLOSE ∧ f_duration f = FLY_DUR_CLOSE)))
  ∧ (∀ k t, k ∈ tourLoops (run evs init_world) → loop_target k = Some t →
            ∃ s, s ∈ stations (run evs init_world) ∧ t = (lat s, lon s)).
Proof.
  destruct (reachable_targets evs) as (Hf & Hl & Ht).
  set (w := run evs init_world) in *. clearbody w. split.
  - intros f Hin. rewrite Forall_forall in Hf. exact (Hf f Hin).
  - intros k t [Hin|Hin]%elem_of_app Hkt; [by eapply Hl|].
    unfold sleepers in Hin. apply list_elem_of_omap in Hin as (tm & Hin & Hk).
    apply list_elem_of_fmap in Hin as ([h tm'] & -> & Hin).
    apply elem_of_map_to_list in Hin. simpl in Hk.
    destruct tm' as [|ms k']; [done|]. injection Hk as ->.
    by eapply Ht.
Qed.

(** * The measurement tool *)

Module MeasureFacts.
Import Measure.

Lemma removeLayer_other l ls :
  Forall (fun x => ly_id x ≠ ly_id l) ls → removeLayer l ls = ls.
Proof.
  unfold removeLayer. induction 1 as [|x ls Hx Hls IH]; [done|].
  rewrite filter_cons, decide_True by done. by rewrite IH.
Qed.

Lemma removeLayer_app l ls1 ls2 :
  removeLayer l (ls1 ++ ls2) = removeLayer l ls1 ++ removeLayer l ls2.
Proof. apply filter_app. Qed.

Lemma removeLayer_self l : removeLayer l [l] = [].
Proof. unfold removeLayer. rewrite filter_cons, decide_False; [done|]. by intros []. Qed.

(** Taking the markers off one by one leaves what was there before them. *)
Lemma remove_markers others mks :
  Forall (fun l => ∀ o, o ∈ others → ly_id o ≠ ly_id l) mks →
  NoDup (map ly_id mks) →
  foldl (fun ls mk => removeLayer mk ls) (others ++ mks) mks = others.
Proof.
  induction mks as [|m mks IH]; intros Hown Hnd; simpl.
  - by rewrite app_nil_r.
  - apply Forall_cons in Hown as [Hm Hown].
    apply NoDup_cons in Hnd as [Hm' Hnd].
    rewrite removeLayer_app, (removeLayer_other m others).
    + change (m :: mks) with ([m] ++ mks).
      rewrite removeLayer_app, removeLayer_self, (removeLayer_other m mks).
      * by apply IH.
      * apply Forall_forall. intros x Hx E. apply Hm'.
        rewrite <- E. by apply list_elem_of_fmap_2.
    + apply Forall_forall. intros o Ho. by apply Hm.
Qed.

Section WithMap.
Variable distance : LatLng → LatLng → Q.

Lemma init_consistent others pop n :
  Forall (fun l => (ly_id l < n)%nat) others →
  Consistent others (init others pop n).
Proof.
  intros Hn. split; simpl; try done.
  - by rewrite app_nil_r.
  - constructor.
Qed.

Lemma btnClick_consistent others t :
  Consistent others t → Consistent others (btnClick t).
Proof.
  intros C. unfold btnClick. destruct (measuring t) eqn:Em; simpl.
  - (* switched off *)
    assert (foldl (fun ls mk => removeLayer mk ls)
              match measureLine t with
              | Some l => removeLayer l (mapLayers t)
              | None => mapLayers t
              end (measureMarkers t) = others) as ->.
    { pose proof (co_own _ _ C) as Hown. pose proof (co_nodup _ _ C) as Hnd.
      rewrite (co_map _ _ C).
      destruct (measureLine t) as [l|]; simpl in *.
      - apply Forall_app in Hown as [Hown Hl].
        rewrite Forall_singleton in Hl.
        rewrite fmap_app in Hnd. apply NoDup_app in Hnd as (Hnd & Hdis & _).
        rewrite !removeLayer_app, removeLayer_self, app_nil_r.
        rewrite (removeLayer_other l others), (removeLayer_other l (measureMarkers t)).
        + by apply remove_markers.
        + apply Forall_forall. intros x Hx E. apply (Hdis (ly_id x)).
          * by apply list_elem_of_fmap_2.
          * rewrite E. simpl. set_solver.
        + apply Forall_forall. intros o Ho. by apply Hl.
      - rewrite app_nil_r in *. by apply remove_markers. }
    split; simpl; try done.
    + by rewrite app_nil_r.
    + eapply Forall_impl; [|intros l Hl; exact Hl].
      pose proof (co_fresh _ _ C) as Hf. rewrite (co_map _ _ C) in Hf.
      by apply Forall_app in Hf as [Hf _].
    + constructor.
  - (* switched on *)
    destruct C. split; simpl; try done.
Qed.

Lemma mapClick_consistent others p t :
  Consistent others t → Consistent others (mapClick distance p t).
Proof.
  intros C. unfold mapClick. destruct (measuring t) eqn:Em; simpl; [|done].
  pose proof (co_markers _ _ C) as Hmk. pose proof (co_line _ _ C) as Hli.
  pose proof (co_map _ _ C) as Hmap. pose proof (co_fresh _ _ C) as Hfr.
  pose proof (co_own _ _ C) as Hown. pose proof (co_nodup _ _ C) as Hnd.
  pose proof (co_button _ _ C) as Hbu. pose proof (co_cursor _ _ C) as Hcu.
  rewrite Em in Hbu, Hcu.
  set (mk := mkLayer (nextId t) (CircleMarker p)).
  assert (∀ x, x ∈ mapLayers t → ly_id x ≠ nextId t) as Hnew.
  { intros x Hx. rewrite Forall_forall in Hfr. specialize (Hfr x Hx). lia. }
  assert (∀ o, o ∈ others → ly_id o ≠ nextId t) as Hnew_o.
  { intros o Ho. apply Hnew. rewrite Hmap. set_solver. }
  assert (∀ o, o ∈ others → ly_id o ≠ S (nextId t)) as Hnew_o'.
  { intros o Ho. rewrite Forall_forall in Hfr.
    assert (o ∈ mapLayers t) as Hin by (rewrite Hmap; set_solver).
    specialize (Hfr o Hin). lia. }
  rewrite length_app. simpl length.
  destruct (measurePoints t) as [|p0 pts] eqn:Ep.
  - (* the first point: no line yet *)
    simpl. destruct (measureMarkers t) as [|? ?] eqn:Emk; [|done].
    destruct (measureLine t) as [l|] eqn:El; [done|].
    simpl in *. rewrite app_nil_r in Hmap.
    split; simpl; rewrite ?Em, ?Hmap; try done.
    + rewrite Hmap in Hfr. rewrite Forall_app. split.
      * eapply Forall_impl; [exact Hfr|]. simpl. intros; lia.
      * apply Forall_singleton. simpl. lia.
    + apply Forall_singleton. exact Hnew_o.
    + apply NoDup_singleton.
  - (* a further point: the line is drawn anew *)
    replace (1 <? S (length pts) + 1)%nat with true
      by (symmetry; apply Nat.ltb_lt; lia).
    set (ln := mkLayer (S (nextId t)) (Polyline ((p0 :: pts) ++ [p]))).
    assert (match measureLine t with
            | Some l => removeLayer l (mapLayers t ++ [mk])
            | None => mapLayers t ++ [mk]
            end = others ++ measureMarkers t ++ [mk]) as Hrm.
    { rewrite Hmap. destruct (measureLine t) as [l|] eqn:El; simpl.
      - rewrite ?El in Hown, Hnd. simpl in Hown, Hnd.
        rewrite Forall_app, Forall_singleton in Hown. destruct Hown as [Ho1 Hl].
        rewrite fmap_app in Hnd. apply NoDup_app in Hnd as (_ & Hdis & _).
        rewrite !removeLayer_app, !removeLayer_self.
        rewrite (removeLayer_other l others), (removeLayer_other l (measureMarkers t)),
          (removeLayer_other l [mk]).
        + by rewrite app_nil_r, <- !app_assoc.
        + apply Forall_singleton. simpl. intros E.
          apply (Hnew l); [|done]. rewrite Hmap. simpl. set_solver.
        + apply Forall_forall. intros x Hx E. apply (Hdis (ly_id x)).
          * by apply list_elem_of_fmap_2.
          * rewrite E. simpl. set_solver.
        + apply Forall_forall. intros o Ho. by apply Hl.
      - by rewrite app_nil_r, <- !app_assoc. }
    simpl. rewrite Hrm.
    replace (1 <? S (length pts + 1))%nat with true
      by (symmetry; apply Nat.ltb_lt; lia).
    split; simpl; rewrite ?Em; try done.
    + rewrite !List.map_app, Hmk. done.
    + destruct (Nat.ltb_spec 1 (S (length (pts ++ [p])))) as [|Hle]; [done|].
      rewrite length_app in Hle. simpl in Hle. lia.
    + by rewrite <- !app_assoc.
    + rewrite !Forall_app. rewrite Hmap, !Forall_app in Hfr.
      destruct Hfr as (F1 & F2 & _).
      repeat split; try (eapply Forall_impl; [eassumption|]; simpl; intros; lia);
        apply Forall_singleton; simpl; lia.
    + rewrite !Forall_app. rewrite Forall_app in Hown.
      destruct Hown as [Ho1 _]. repeat split; [done| |];
        by apply Forall_singleton.
    + rewrite <- app_assoc, List.map_app. rewrite List.map_app in Hnd.
      apply NoDup_app in Hnd as (Hnd & _ & _).
      apply NoDup_app. split; [done|]. split.
      * intros x Hx Hin.
        change (x ∈ ly_id <$> measureMarkers t) in Hx.
        apply list_elem_of_fmap in Hx as (y & -> & Hy).
        assert (y ∈ mapLayers t) as Hym.
        { rewrite Hmap, !elem_of_app. right. by left. }
        rewrite Forall_forall in Hfr. specialize (Hfr y Hym).
        simpl in Hin. apply elem_of_cons in Hin as [Hin|Hin]; [lia|].
        apply list_elem_of_singleton in Hin. lia.
      * simpl. apply NoDup_cons. split; [|apply NoDup_singleton].
        intros Hin%list_elem_of_singleton. lia.
Qed.

Lemma step_consistent others e t :
  Consistent others t → Consistent others (step distance e t).
Proof.
  intros C. destruct e as [|p|escape]; simpl.
  - by apply btnClick_consistent.
  - by apply mapClick_consistent.
  - unfold keyDown. destruct (escape && measuring t); [|done].
    by apply btnClick_consistent.
Qed.

Lemma run_consistent others evs t :
  Consistent others t → Consistent others (run distance evs t).
Proof.
  revert t. induction evs as [|e evs IH]; intros t C; simpl; [done|].
  by apply IH, step_consistent.
Qed.


(** X12.  The tool's layers.  Start with measuring off and any layers of other
    scripts on the map.  After any clicks on the button, clicks on the map
    and key strokes, the tool has one circle marker per measured point, in
    the order of the clicks and at those points; it has a line exactly when
    there are two points or more, and the line runs through all of them;
    the map holds the others' layers, untouched, followed by exactly these
    layers; and whenever measuring is off, no point is kept and no layer of
    the tool is on the map. *)
Theorem X12_measure_layers_match_points
    (others : list Layer) (pop : option Popup) (n : nat) (evs : list Event) :
  Forall (fun l => (ly_id l < n)%nat) others →
  map ly_shape (measureMarkers (run distance evs (init others pop n)))
  = map CircleMarker (measurePoints (run distance evs (init others pop n)))
  ∧ map ly_shape
      (option_list (measureLine (run distance evs (init others pop n))))
    = (if (1 <? length (measurePoints
                      (run distance evs (init others pop n))))%nat
       then [Polyline (measurePoints (run distance evs (init others pop n)))]
       else [])
  ∧ mapLayers (run distance evs (init others pop n))
    = others ++ measureMarkers (run distance evs (init others pop n))
      ++ option_list (measureLine (run distance evs (init others pop n)))
  ∧ (measuring (run distance evs (init others pop n)) = false →
       measurePoints (run distance evs (init others pop n)) = []
       ∧ measureMarkers (run distance evs (init others pop n)) = []
       ∧ measureLine (run distance evs (init others pop n)) = None
       ∧ mapLayers (run distance evs (init others pop n)) = others).
Proof.
  intros Hn.
  pose proof (run_consistent others evs _ (init_consistent others pop n Hn))
    as C.
  set (t := run distance evs (init others pop n)) in *. clearbody t.
  split; [apply C|]. split; [apply C|]. split; [apply C|].
  intros Hoff. pose proof (co_off _ _ C Hoff) as Hp.
  pose proof (co_markers _ _ C) as Hm. pose proof (co_line _ _ C) as Hl.
  pose proof (co_map _ _ C) as Hmap. rewrite Hp in Hm, Hl. simpl in Hm, Hl.
  destruct (measureMarkers t); [|done].
  destruct (measureLine t); [done|].
  rewrite Hmap. simpl. by rewrite app_nil_r.
Qed.

(** X13.  Escape.  However the tool has been used, after [Escape] measuring is
    off, the button is not active, the cursor is the default one and the
    map holds the others' layers only; if the tool was measuring, the popup
    has been closed, and if it was not, the key changes nothing.  Any other
    key changes nothing. *)
Theorem X13_escape_switches_off
    (others : list Layer) (pop : option Popup) (n : nat) (evs : list Event) :
  Forall (fun l => (ly_id l < n)%nat) others →
  measuring (run distance (evs ++ [KeyDown true]) (init others pop n)) = false
  ∧ btnActive (run distance (evs ++ [KeyDown true]) (init others pop n))
    = false
  ∧ cursor (run distance (evs ++ [KeyDown true]) (init others pop n))
    = CursorDefault
  ∧ mapLayers (run distance (evs ++ [KeyDown true]) (init others pop n))
    = others
  ∧ (measuring (run distance evs (init others pop n)) = true →
       popup (run distance (evs ++ [KeyDown true]) (init others pop n))
       = None)
  ∧ (measuring (run distance evs (init others pop n)) = false →
       run distance (evs ++ [KeyDown true]) (init others pop n)
       = run distance evs (init others pop n))
  ∧ run distance (evs ++ [KeyDown false]) (init others pop n)
    = run distance evs (init others pop n).
Proof.
  intros Hn.
  pose proof (run_consistent others evs _ (init_consistent others pop n Hn))
    as C.
  unfold run. rewrite !foldl_app. fold (run distance evs (init others pop n)).
  set (t := run distance evs (init others pop n)) in *. clearbody t.
  simpl. unfold keyDown. simpl.
  pose proof (btnClick_consistent others t C) as C'.
  destruct (measuring t) eqn:Em.
  - assert (measuring (btnClick t) = false) as Hoff.
    { unfold btnClick. by rewrite Em. }
    pose proof (co_button _ _ C') as Hb. pose proof (co_cursor _ _ C') as Hc.
    pose proof (co_map _ _ C') as Hmap. pose proof (co_off _ _ C' Hoff) as Hp.
    pose proof (co_markers _ _ C') as Hm. pose proof (co_line _ _ C') as Hl.
    rewrite Hoff in Hb, Hc. rewrite Hp in Hm, Hl. simpl in Hm, Hl.
    split; [done|]. split; [done|]. split; [done|]. split.
    { rewrite Hmap. destruct (measureMarkers (btnClick t)); [|done].
      destruct (measureLine (btnClick t)); [done|]. simpl.
      by rewrite app_nil_r. }
    split; [|done]. intros _. unfold btnClick. by rewrite Em.
  - pose proof (co_button _ _ C) as Hb. pose proof (co_cursor _ _ C) as Hc.
    pose proof (co_map _ _ C) as Hmap. pose proof (co_off _ _ C Em) as Hp.
    pose proof (co_markers _ _ C) as Hm. pose proof (co_line _ _ C) as Hl.
    rewrite Em in Hb, Hc. rewrite Hp in Hm, Hl. simpl in Hm, Hl.
    split; [done|]. split; [done|]. split; [done|]. split; [|done].
    rewrite Hmap. destruct (measureMarkers t); [|done].
    destruct (measureLine t); [done|]. simpl. by rewrite app_nil_r.
Qed.




End WithMap.
End MeasureFacts.


(** A map with one layer of another script; the distance used for the
    samples makes every leg 1500 m long. *)
Lemma X12_witness :
  Forall (fun l => (Measure.ly_id l < 5)%nat) [Measure.mkLayer 4 Measure.Foreign]
  ∧ Measure.mapLayers
      (Measure.run (fun _ _ => 1500%Q)
         [Measure.BtnClick; Measure.MapClick (1%Q, 1%Q);
          Measure.MapClick (2%Q, 2%Q)]
         (Measure.init [Measure.mkLayer 4 Measure.Foreign] None 5))
    = [Measure.mkLayer 4 Measure.Foreign]
      ++ Measure.measureMarkers
           (Measure.run (fun _ _ => 1500%Q)
              [Measure.BtnClick; Measure.MapClick (1%Q, 1%Q);
               Measure.MapClick (2%Q, 2%Q)]
              (Measure.init [Measure.mkLayer 4 Measure.Foreign] None 5))
      ++ option_list
           (Measure.measureLine
              (Measure.run (fun _ _ => 1500%Q)
                 [Measure.BtnClick; Measure.MapClick (1%Q, 1%Q);
                  Measure.MapClick (2%Q, 2%Q)]
                 (Measure.init [Measure.mkLayer 4 Measure.Foreign] None 5))).
Proof.
  assert (Forall (fun l => (Measure.ly_id l < 5)%nat)
            [Measure.mkLayer 4 Measure.Foreign]) as H.
  { apply Forall_singleton. simpl. lia. }
  split; [exact H|].
  exact (proj1 (proj2 (proj2
           (MeasureFacts.X12_measure_layers_match_points (fun _ _ => 1500%Q)
              [Measure.mkLayer 4 Measure.Foreign] None 5
              [Measure.BtnClick; Measure.MapClick (1%Q, 1%Q);
               Measure.MapClick (2%Q, 2%Q)] H)))).
Defined.

Lemma X13_witness :
  Forall (fun l => (Measure.ly_id l < 5)%nat) [Measure.mkLayer 4 Measure.Foreign]
  ∧ Measure.mapLayers
      (Measure.run (fun _ _ => 1500%Q)
         ([Measure.BtnClick; Measure.MapClick (1%Q, 1%Q);
           Measure.MapClick (2%Q, 2%Q)] ++ [Measure.KeyDown true])
         (Measure.init [Measure.mkLayer 4 Measure.Foreign] None 5))
    = [Measure.mkLayer 4 Measure.Foreign].
Proof.
  assert (Forall (fun l => (Measure.ly_id l < 5)%nat)
            [Measure.mkLayer 4 Measure.Foreign]) as H.
  { apply Forall_singleton. simpl. lia. }
  split; [exact H|].
  exact (proj1 (proj2 (proj2 (proj2
           (MeasureFacts.X13_escape_switches_off (fun _ _ => 1500%Q)
              [Measure.mkLayer 4 Measure.Foreign] None 5
              [Measure.BtnClick; Measure.MapClick (1%Q, 1%Q);
               Measure.MapClick (2%Q, 2%Q)] H))))).
Defined.


(** * The address search box *)

Module SearchFacts.
Import Search.

Section WithBrowser.
Variable trim : string → string.
Variable accepts : option Q → option Q → bool.

Lemma submit_blank value b :
  trim value = EmptyString → submit trim value b = b.
Proof. intros E. unfold submit. by rewrite E. Qed.

Lemma search_round value o b :
  trim value ≠ EmptyString → pending b = [] →
  disabled (run trim accepts [Submit value; Settle 0 o] b) = false
  ∧ label (run trim accepts [Submit value; Settle 0 o] b) = label b
  ∧ pending (run trim accepts [Submit value; Settle 0 o] b) = []
  ∧ requests (run trim accepts [Submit value; Settle 0 o] b)
    = requests b ++ [trim value]
  ∧ layer (run trim accepts [Submit value; Settle 0 o] b)
    = match o with
      | Found r => if accepts (g_lat r) (g_lon r)
                   then [mkMarker (g_lat r) (g_lon r)
                           (default "Search result" (g_name r))]
                   else []
      | _ => []
      end
  ∧ view (run trim accepts [Submit value; Settle 0 o] b)
    = match o with
      | Found r => if accepts (g_lat r) (g_lon r)
                   then Some (g_lat r, g_lon r, ZOOM_LEVEL) else view b
      | _ => view b
      end
  ∧ alerts (run trim accepts [Submit value; Settle 0 o] b)
    = alerts b
      ++ match o with
         | Rejected => [AlertFailed]
         | NoResult => [AlertNoResults]
         | Found r => if accepts (g_lat r) (g_lon r) then []
                      else [AlertFailed]
         end.
Proof.
  intros Hq Hp. simpl. unfold submit.
  destruct (trim value) as [|c q] eqn:E; [done|].
  unfold settle. simpl. rewrite Hp. simpl.
  destruct o as [| |r]; simpl; try done.
  destruct (accepts (g_lat r) (g_lon r)); simpl; try done.
  by rewrite app_nil_r.
Qed.

(** X15.  The button comes back.  Let searches follow one another as the
    disabled button makes them: each lookup ends before the next submit.
    Whatever the lookups do (reject, find nothing, find a place, or yield
    coordinates the map refuses), after them no lookup is awaited, the
    button is enabled and carries the label it had before the first of
    them, and the search layer holds one marker at most. *)
Theorem X15_search_button_restored (evs : list Event) (b : Box) :
  sequential trim evs →
  pending b = [] → disabled b = false → (length (layer b) <= 1)%nat →
  pending (run trim accepts evs b) = []
  ∧ disabled (run trim accepts evs b) = false
  ∧ label (run trim accepts evs b) = label b
  ∧ (length (layer (run trim accepts evs b)) <= 1)%nat.
Proof.
  intros Hs. revert b.
  induction Hs as [|value evs Hv Hs IH|value o evs Hv Hs IH];
    intros b Hp Hd Hl.
  - done.
  - simpl. rewrite submit_blank by done. by apply IH.
  - destruct (search_round value o b Hv Hp)
      as (Hd' & Hl' & Hp' & _ & Hla & _).
    change (run trim accepts (Submit value :: Settle 0 o :: evs) b)
      with (run trim accepts evs
              (run trim accepts [Submit value; Settle 0 o] b)).
    destruct (IH _ Hp' Hd') as (H1 & H2 & H3 & H4).
    + rewrite Hla. destruct o as [| |r]; simpl; try lia.
      destruct (accepts _ _); simpl; lia.
    + by rewrite H3, Hl'.
Qed.

(** X16.  One search.  With no lookup awaited, a submit of a value that is not
    blank sends one request, for the trimmed value, and clears the search
    layer at once; when the lookup has ended, the layer holds the marker of
    the place found and the map is centred on it at zoom 10, or, if nothing
    was found, the lookup failed or the map refused the coordinates, the
    layer is empty, the view is the one before and one alert has been
    shown.  In each case the button is enabled again with its label. *)
Theorem X16_search_result (value : string) (o : Outcome) (b : Box) :
  trim value ≠ EmptyString → pending b = [] →
  layer (submit trim value b) = []
  ∧ disabled (submit trim value b) = true
  ∧ requests (submit trim value b) = requests b ++ [trim value]
  ∧ disabled (run trim accepts [Submit value; Settle 0 o] b) = false
  ∧ label (run trim accepts [Submit value; Settle 0 o] b) = label b
  ∧ requests (run trim accepts [Submit value; Settle 0 o] b)
    = requests b ++ [trim value]
  ∧ (∀ r, o = Found r → accepts (g_lat r) (g_lon r) = true →
       layer (run trim accepts [Submit value; Settle 0 o] b)
       = [mkMarker (g_lat r) (g_lon r) (default "Search result" (g_name r))]
       ∧ view (run trim accepts [Submit value; Settle 0 o] b)
         = Some (g_lat r, g_lon r, ZOOM_LEVEL)
       ∧ alerts (run trim accepts [Submit value; Settle 0 o] b) = alerts b)
  ∧ ((∀ r, o = Found r → accepts (g_lat r) (g_lon r) = false) →
       layer (run trim accepts [Submit value; Settle 0 o] b) = []
       ∧ view (run trim accepts [Submit value; Settle 0 o] b) = view b
       ∧ length (alerts (run trim accepts [Submit value; Settle 0 o] b))
         = S (length (alerts b))).
Proof.
  intros Hv Hp.
  destruct (search_round value o b Hv Hp)
    as (Hd & Hl & _ & Hr & Hla & Hvi & Hal).
  assert (layer (submit trim value b) = []
          ∧ disabled (submit trim value b) = true
          ∧ requests (submit trim value b) = requests b ++ [trim value])
    as (S1 & S2 & S3).
  { unfold submit. by destruct (trim value). }
  repeat (split; [done|]). split.
  - intros r -> Ha. rewrite Hla, Hvi, Hal, Ha. by rewrite app_nil_r.
  - intros Hno. rewrite Hla, Hvi, Hal, length_app.
    destruct o as [| |r]; simpl; try (split; [done|split; [done|lia]]).
    rewrite (Hno r eq_refl). simpl. split; [done|]. split; [done|lia].
Qed.

End WithBrowser.
End SearchFacts.

(** A search for "Perth" that finds the place, with a [trim] that finds
    nothing to cut and a map that takes every pair of numbers. *)
Lemma X15_witness :
  Search.sequential (fun s => s)
    [Search.Submit "Perth";
     Search.Settle 0 (Search.Found
       (Search.mkGeo (Some (-32)%Q) (Some 116%Q) (Some "Perth, Australia")))]
  ∧ Search.label
      (Search.run (fun s => s)
         (fun la lo => bool_decide (is_Some la) && bool_decide (is_Some lo))
         [Search.Submit "Perth";
          Search.Settle 0 (Search.Found
            (Search.mkGeo (Some (-32)%Q) (Some 116%Q)
               (Some "Perth, Australia")))]
         Search.init)
    = "Search".
Proof.
  assert (Search.sequential (fun s => s)
            [Search.Submit "Perth";
             Search.Settle 0 (Search.Found
               (Search.mkGeo (Some (-32)%Q) (Some 116%Q)
                  (Some "Perth, Australia")))]) as H.
  { apply Search.seq_search; [discriminate|constructor]. }
  split; [exact H|].
  exact (proj1 (proj2 (proj2
           (SearchFacts.X15_search_button_restored (fun s => s)
              (fun la lo => bool_decide (is_Some la) && bool_decide (is_Some lo))
              _ Search.init H eq_refl eq_refl ltac:(simpl; lia))))).
Defined.

Lemma X16_witness :
  "Perth" ≠ EmptyString
  ∧ Search.pending Search.init = []
  ∧ Search.layer
      (Search.run (fun s => s) (fun _ _ => false)
         [Search.Submit "Perth";
          Search.Settle 0 (Search.Found
            (Search.mkGeo None None None))]
         Search.init)
    = [].
Proof.
  assert ("Perth" ≠ EmptyString) as H by discriminate.
  split; [exact H|]. split; [reflexivity|].
  destruct (SearchFacts.X16_search_result (fun s => s) (fun _ _ => false)
              "Perth" (Search.Found (Search.mkGeo None None None))
              Search.init H eq_refl)
    as (_ & _ & _ & _ & _ & _ & _ & Hno).
  exact (proj1 (Hno (fun r _ => eq_refl))).
Defined.
